(** * Module resolution and merge in imery

    A shallow embedding of the two YAML module resolvers of the repository:
    - [Lang.load_main_module] (src/src/imery/lang.py): breadth-first,
      strict, widgets qualified by module name;
    - [YAMLAggregator.process_module] / [YAMLAggregator.aggregate]
      (src/scripts/aggregate_demo_yaml.py): depth-first, permissive,
      flat widget names.

    YAML documents are the values [yaml.safe_load] returns, with scalar
    mapping keys (strings, integers, booleans, null); Python dicts are
    insertion-ordered association lists; Python exceptions, early
    [return]s and the object's mutable attributes are threaded through a
    small state and exception monad. *)

From Stdlib Require Import String Ascii List Bool ZArith Lia.
Import ListNotations.
Open Scope string_scope.
Set Warnings "-register-all".

(** ** YAML values *)

(** The mapping keys [yaml.safe_load] builds for scalar keys: strings,
    integers, booleans and null. *)
Inductive ykey : Type :=
| KStr (s : string)
| KInt (z : Z)
| KBool (b : bool)
| KNull.

Inductive yval : Type :=
| YNull
| YBool (b : bool)
| YInt (z : Z)
| YStr (s : string)
| YSeq (items : list yval)
| YMap (entries : list (ykey * yval)).

(** A key as the value it is ([for k in d] yields the keys). *)
Definition key_value (k : ykey) : yval :=
  match k with
  | KStr s => YStr s
  | KInt z => YInt z
  | KBool b => YBool b
  | KNull => YNull
  end.

(** [str(n)] for a natural number: its decimal digits. *)
Fixpoint decimal_digits (fuel : nat) (n : N) (acc : string) : string :=
  match fuel with
  | O => acc
  | S f =>
      let acc' := String (ascii_of_N (48 + N.modulo n 10)%N) acc in
      if N.eqb (N.div n 10) 0%N then acc' else decimal_digits f (N.div n 10) acc'
  end.

Definition str_of_N (n : N) : string := decimal_digits (S (N.size_nat n)) n "".

(** [str(z)] for an integer. *)
Definition str_of_Z (z : Z) : string :=
  match z with
  | Z.neg p => "-" ++ str_of_N (N.pos p)
  | _ => str_of_N (Z.to_N z)
  end.

(** [f"{k}"]: how a key is rendered inside an f-string. *)
Definition key_str (k : ykey) : string :=
  match k with
  | KStr s => s
  | KInt z => str_of_Z z
  | KBool true => "True"
  | KBool false => "False"
  | KNull => "None"
  end.

(** Python compares dict keys by [==]: [True == 1] and [False == 0], so
    a boolean key is the same dict key as the matching integer. *)
Definition key_norm (k : ykey) : ykey :=
  match k with
  | KBool b => KInt (if b then 1 else 0)
  | _ => k
  end.

Definition ykey_eqb (k k' : ykey) : bool :=
  match k, k' with
  | KStr s, KStr s' => String.eqb s s'
  | KInt z, KInt z' => Z.eqb z z'
  | KBool b, KBool b' => Bool.eqb b b'
  | KNull, KNull => true
  | _, _ => false
  end.

(** [k == k'] on dict keys. *)
Definition key_eqb (k k' : ykey) : bool := ykey_eqb (key_norm k) (key_norm k').

(** Python truthiness ([if x:]). *)
Definition truthy (v : yval) : bool :=
  match v with
  | YNull => false
  | YBool b => b
  | YInt z => negb (Z.eqb z 0)
  | YStr s => negb (String.eqb s "")
  | YSeq l => match l with [] => false | _ => true end
  | YMap kvs => match kvs with [] => false | _ => true end
  end.

(** [x is None] *)
Definition is_none (v : yval) : bool :=
  match v with YNull => true | _ => false end.

(** ** Python dicts as insertion-ordered association lists

    [eqb] is the key comparison: [String.eqb] for the dicts the code keys
    by strings it builds, [key_eqb] for the dicts keyed by document keys. *)

Fixpoint assoc_lookup {K A} (eqb : K -> K -> bool) (k : K) (d : list (K * A)) : option A :=
  match d with
  | [] => None
  | (k', v) :: d' => if eqb k k' then Some v else assoc_lookup eqb k d'
  end.

(** [k in d] *)
Definition assoc_mem {K A} (eqb : K -> K -> bool) (k : K) (d : list (K * A)) : bool :=
  match assoc_lookup eqb k d with Some _ => true | None => false end.

(** [d[k] = v]: an existing key keeps its position (and the key object
    first inserted), a new key goes last. *)
Fixpoint assoc_set {K A} (eqb : K -> K -> bool) (k : K) (v : A) (d : list (K * A))
  : list (K * A) :=
  match d with
  | [] => [(k, v)]
  | (k', v') :: d' =>
      if eqb k k' then (k', v) :: d' else (k', v') :: assoc_set eqb k v d'
  end.

Abbreviation dict_lookup := (assoc_lookup String.eqb).
Abbreviation dict_mem := (assoc_mem String.eqb).
Abbreviation dict_set := (assoc_set String.eqb).
Abbreviation ydict_lookup := (assoc_lookup key_eqb).
Abbreviation ydict_mem := (assoc_mem key_eqb).
Abbreviation ydict_set := (assoc_set key_eqb).

(** [x in s] for a Python set of strings. *)
Definition mem (s : string) (l : list string) : bool :=
  existsb (String.eqb s) l.

(** [d.get(k, default)] for a string key; [None] when [d] is no dict
    ([AttributeError]). *)
Definition py_get (d : yval) (k : string) (dflt : yval) : option yval :=
  match d with
  | YMap kvs => Some (match ydict_lookup (KStr k) kvs with Some v => v | None => dflt end)
  | _ => None
  end.

(** [d.items()]; [None] when [d] is no dict. *)
Definition py_items (d : yval) : option (list (ykey * yval)) :=
  match d with YMap kvs => Some kvs | _ => None end.

(** Iterating over a value ([for x in v], [list.extend(v)]): a list yields
    its items, a string its characters, a dict its keys; anything else is
    not iterable ([TypeError]). *)
Definition py_iter (v : yval) : option (list yval) :=
  match v with
  | YSeq l => Some l
  | YStr s => Some (map (fun c => YStr (String c EmptyString)) (list_ascii_of_string s))
  | YMap kvs => Some (map (fun kv => key_value (fst kv)) kvs)
  | _ => None
  end.

(** ** Files, search directories and the module locator *)

(** The outcome of [yaml.safe_load] on a file's bytes: a parse failure or
    the document (an empty document is [YNull]). *)
Inductive file : Type :=
| Malformed (err : string)
| Document (v : yval).

Record dir : Type := mkDir {
  dir_path : string;
  dir_files : list (string * file)   (* relative path -> file *)
}.

(** [module_name.replace('.', '/')] *)
Fixpoint dots_to_slashes (s : string) : string :=
  match s with
  | EmptyString => EmptyString
  | String c r =>
      String (if Ascii.eqb c "."%char then "/"%char else c) (dots_to_slashes r)
  end.

(** The candidate loop shared by [Lang.load_main_module] and
    [YAMLAggregator.find_yaml_file]: the first search directory holding
    [<module_path>.yaml] wins; the result is the path and the file. *)
Fixpoint find_yaml_file (paths : list dir) (module_name : string)
  : option (string * file) :=
  match paths with
  | [] => None
  | d :: ds =>
      let rel := dots_to_slashes module_name ++ ".yaml" in
      match dict_lookup rel (dir_files d) with
      | Some f => Some (dir_path d ++ "/" ++ rel, f)
      | None => find_yaml_file ds module_name
      end
  end.

(** ** A state and exception monad *)

Inductive py_exc : Type := AttributeError | TypeError.

(** How a block of statements ends: normally with a value, by an early
    [return r], by a raised exception, or out of fuel (the loop bound). *)
Inductive exec (R A : Type) : Type :=
| Normal (a : A)
| Return (r : R)
| Raise (e : py_exc)
| NoFuel.
Arguments Normal {R A} a.
Arguments Return {R A} r.
Arguments Raise {R A} e.
Arguments NoFuel {R A}.

Definition ST (S R A : Type) : Type := S -> exec R A * S.

Definition ret {S R A} (a : A) : ST S R A := fun s => (Normal a, s).

Definition bind {S R A B} (m : ST S R A) (k : A -> ST S R B) : ST S R B :=
  fun s =>
    match m s with
    | (Normal a, s') => k a s'
    | (Return r, s') => (Return r, s')
    | (Raise e, s') => (Raise e, s')
    | (NoFuel, s') => (NoFuel, s')
    end.

Notation "x <- m ;; k" := (bind m (fun x => k))
  (at level 61, m at next level, right associativity).
Notation "m ;;; k" := (bind m (fun _ => k))
  (at level 61, right associativity).

Definition get {S R} : ST S R S := fun s => (Normal s, s).
Definition put {S R} (s : S) : ST S R unit := fun _ => (Normal tt, s).
Definition modify {S R} (f : S -> S) : ST S R unit := fun s => (Normal tt, f s).
Definition early_return {S R A} (r : R) : ST S R A := fun s => (Return r, s).
Definition raise {S R A} (e : py_exc) : ST S R A := fun s => (Raise e, s).
Definition out_of_fuel {S R A} : ST S R A := fun s => (NoFuel, s).

(** An optional value, or the given exception. *)
Definition lift {S R A} (e : py_exc) (o : option A) : ST S R A :=
  match o with Some a => ret a | None => raise e end.

Fixpoint for_each {S R A} (l : list A) (body : A -> ST S R unit) : ST S R unit :=
  match l with
  | [] => ret tt
  | x :: l' => body x ;;; for_each l' body
  end.

(** ** [Lang] (src/src/imery/lang.py) *)

Module Lang.

(** The attributes of a [Lang] object. *)
Record lang : Type := mkLang {
  layouts_paths : list dir;
  widget_definitions : list (string * yval);  (* namespace.widget -> def *)
  data_definitions : list (ykey * yval);       (* data_name -> def *)
  app_config : yval                           (* YNull is None *)
}.

(** [Lang.__init__]: the builtin layouts directory goes first. *)
Definition new (builtin_layouts_dir : dir) (paths : list dir) : lang :=
  mkLang (builtin_layouts_dir :: paths) [] [] YNull.

Inductive lang_error : Type :=
| ModuleNotFound (module : string)
| YamlLoadFailed (module_file : string)
| DuplicateWidget (full_name : string)
| DuplicateData (data_name : ykey)
| MultipleApp (module : string)
| NoWidgets
| NoApp.

(** [Result[None]] *)
Inductive result : Type := Ok | Error (e : lang_error).

(** The running method: [self] and the locals [queue] and [visited]. *)
Record frame : Type := mkFrame {
  self : lang;
  queue : list yval;
  visited : list string
}.

Definition set_self (l : lang) (fr : frame) : frame :=
  mkFrame l (queue fr) (visited fr).
Definition set_queue (q : list yval) (fr : frame) : frame :=
  mkFrame (self fr) q (visited fr).
Definition set_visited (v : list string) (fr : frame) : frame :=
  mkFrame (self fr) (queue fr) v.

Definition set_widgets (w : list (string * yval)) (l : lang) : lang :=
  mkLang (layouts_paths l) w (data_definitions l) (app_config l).
Definition set_data (d : list (ykey * yval)) (l : lang) : lang :=
  mkLang (layouts_paths l) (widget_definitions l) d (app_config l).
Definition set_app (a : yval) (l : lang) : lang :=
  mkLang (layouts_paths l) (widget_definitions l) (data_definitions l) a.

Definition LM (A : Type) : Type := ST frame result A.

(** Lines 90-96: widgets namespaced by module name,
    [full_name = f"{current_module}.{widget_name}"]. *)
Definition merge_widget (current_module : string) (kv : ykey * yval) : LM unit :=
  let full_name := current_module ++ "." ++ key_str (fst kv) in
  fr <- get ;;
  if dict_mem full_name (widget_definitions (self fr))
  then early_return (Error (DuplicateWidget full_name))
  else put (set_self (set_widgets (dict_set full_name (snd kv)
                        (widget_definitions (self fr))) (self fr)) fr).

(** Lines 98-103: data merged by key. *)
Definition merge_data (kv : ykey * yval) : LM unit :=
  fr <- get ;;
  if ydict_mem (fst kv) (data_definitions (self fr))
  then early_return (Error (DuplicateData (fst kv)))
  else put (set_self (set_data (ydict_set (fst kv) (snd kv)
                        (data_definitions (self fr))) (self fr)) fr).

(** Lines 105-110: only one app. *)
Definition merge_app (current_module : string) (app : yval) : LM unit :=
  if is_none app then ret tt
  else
    fr <- get ;;
    if negb (is_none (app_config (self fr)))
    then early_return (Error (MultipleApp current_module))
    else put (set_self (set_app app (self fr)) fr).

(** Lines 112-115: [if imports: queue.extend(imports)]. *)
Definition extend_queue (imports : yval) : LM unit :=
  if truthy imports then
    items <- lift TypeError (py_iter imports) ;;
    modify (fun fr => set_queue (queue fr ++ items) fr)
  else ret tt.

(** Lines 90-115: the contributions of one loaded module. *)
Definition process_content (current_module : string) (module_content : yval)
  : LM unit :=
  widgets <- lift AttributeError (py_get module_content "widgets" (YMap [])) ;;
  witems <- lift AttributeError (py_items widgets) ;;
  for_each witems (merge_widget current_module) ;;;
  data <- lift AttributeError (py_get module_content "data" (YMap [])) ;;
  ditems <- lift AttributeError (py_items data) ;;
  for_each ditems merge_data ;;;
  app <- lift AttributeError (py_get module_content "app" YNull) ;;
  merge_app current_module app ;;;
  imports <- lift AttributeError (py_get module_content "import" (YSeq [])) ;;
  extend_queue imports.

(** Lines 62-115: one iteration of the loop on a popped element. *)
Definition visit (current_module : yval) (continue : LM unit) : LM unit :=
  match current_module with
  | YStr m =>
      fr <- get ;;
      if mem m (visited fr) then continue
      else
        put (set_visited (m :: visited fr) fr) ;;;
        match find_yaml_file (layouts_paths (self fr)) m with
        | None => early_return (Error (ModuleNotFound m))
        | Some (path, Malformed _) => early_return (Error (YamlLoadFailed path))
        | Some (_, Document v) =>
            process_content m (if is_none v then YMap [] else v) ;;;
            continue
        end
  | YSeq _ | YMap _ => raise TypeError       (* unhashable *)
  | _ => raise AttributeError                (* no .replace *)
  end.

(** Lines 59-115: [while queue: current_module = queue.popleft() ...];
    [fuel] bounds the number of iterations. *)
Fixpoint loop (fuel : nat) : LM unit :=
  match fuel with
  | 0 => out_of_fuel
  | S f =>
      fr <- get ;;
      match queue fr with
      | [] => ret tt
      | current_module :: rest =>
          put (set_queue rest fr) ;;;
          visit current_module (loop f)
      end
  end.

(** Number of queue entries the loop appends for a module file. *)
Definition pushed (v : yval) : list yval :=
  match py_get (if is_none v then YMap [] else v) "import" (YSeq []) with
  | Some imports =>
      if truthy imports then
        match py_iter imports with Some l => l | None => [] end
      else []
  | None => []
  end.

(** Every name the queue can ever hold: the seeds and the entries the
    loop would append for some file of the search paths. *)
Definition all_entries (paths : list dir) (seeds : list yval) : list yval :=
  seeds ++ concat (map (fun d => concat (map (fun kf =>
    match snd kf with Document v => pushed v | Malformed _ => [] end)
    (dir_files d))) paths).

Definition cost (paths : list dir) (x : yval) : nat :=
  match x with
  | YStr m =>
      match find_yaml_file paths m with
      | Some (_, Document v) => length (pushed v)
      | _ => 0
      end
  | _ => 0
  end.

Definition fuel_for (paths : list dir) (seeds : list yval) : nat :=
  S (length seeds + list_sum (map (cost paths) (all_entries paths seeds))).

Definition seeds (module_name : string) : list yval :=
  [YStr module_name; YStr "builtin"].

(** Lines 56-124. *)
Definition load_main_module_body (fuel : nat) (module_name : string) : LM result :=
  modify (fun fr => mkFrame (self fr) (seeds module_name) []) ;;;
  loop fuel ;;;
  fr <- get ;;
  match widget_definitions (self fr) with
  | [] => ret (Error NoWidgets)
  | _ =>
      if is_none (app_config (self fr)) then ret (Error NoApp) else ret Ok
  end.

(** How a call ends: a returned [Result] (early or at the end), an
    exception, or the loop bound exhausted. *)
Inductive outcome : Type :=
| Returned (r : result)
| Raised (e : py_exc)
| Diverged.

Definition outcome_of (e : exec result result) : outcome :=
  match e with
  | Normal r | Return r => Returned r
  | Raise x => Raised x
  | NoFuel => Diverged
  end.

(** [self.load_main_module(module_name)]: the outcome and the final
    frame (whose [self] is the object after the call). *)
Definition load_main_module (l : lang) (module_name : string) : outcome * frame :=
  let '(e, fr) :=
    load_main_module_body (fuel_for (layouts_paths l) (seeds module_name))
      module_name (mkFrame l [] []) in
  (outcome_of e, fr).

(** What [Path.exists()] and [Path.is_dir()] report for a path. *)
Inductive path_kind : Type := PathMissing | PathDir | PathOther.

Inductive init_error : Type :=
| SearchPathMissing (path : string)     (* "Search path does not exist" *)
| SearchPathNotDir (path : string).     (* "Search path is not a directory" *)

Inductive init_result : Type := InitOk | InitError (e : init_error).

(** Lines 39-44: the loop over the search paths. *)
Fixpoint init_paths (stat : string -> path_kind) (paths : list dir) : init_result :=
  match paths with
  | [] => InitOk
  | path :: rest =>
      match stat (dir_path path) with
      | PathMissing => InitError (SearchPathMissing (dir_path path))
      | PathOther => InitError (SearchPathNotDir (dir_path path))
      | PathDir => init_paths stat rest
      end
  end.

(** [Lang.init], lines 37-44. *)
Definition init (stat : string -> path_kind) (l : lang) : init_result :=
  init_paths stat (layouts_paths l).

(** [Lang.dispose], lines 141-146: the result and the object afterwards. *)
Definition dispose (l : lang) : result * lang :=
  (Ok, mkLang (layouts_paths l) [] [] YNull).

End Lang.

(** ** [YAMLAggregator] (src/scripts/aggregate_demo_yaml.py) *)

Module YAMLAggregator.

(** What the script prints (stdout and stderr). *)
Inductive message : Type :=
| Aggregating (main_module : string)
| Processing (module_file : string)
| WarnNotFound (module_name : string)
| ErrorLoading (file_path : string)
| WarnDuplicateWidget (widget_name : ykey) (module_name : string)
| WarnDuplicateData (data_name : ykey).

(** The attributes of a [YAMLAggregator] object, and the printed lines
    (most recent first). *)
Record aggregator : Type := mkAgg {
  demo_dir : dir;
  search_paths : list dir;
  widgets : list (ykey * (string * yval));  (* name -> (module, def) *)
  data : list (ykey * yval);
  app_config : yval;
  visited_modules : list string;
  output : list message
}.

(** [YAMLAggregator.__init__]: [search_paths or [demo_dir]]. *)
Definition new (demo_dir : dir) (search_paths : list dir) : aggregator :=
  mkAgg demo_dir (match search_paths with [] => [demo_dir] | _ => search_paths end)
    [] [] YNull [] [].

Definition set_widgets (w : list (ykey * (string * yval))) (a : aggregator) :=
  mkAgg (demo_dir a) (search_paths a) w (data a) (app_config a)
    (visited_modules a) (output a).
Definition set_data (d : list (ykey * yval)) (a : aggregator) :=
  mkAgg (demo_dir a) (search_paths a) (widgets a) d (app_config a)
    (visited_modules a) (output a).
Definition set_app (v : yval) (a : aggregator) :=
  mkAgg (demo_dir a) (search_paths a) (widgets a) (data a) v
    (visited_modules a) (output a).
Definition set_visited (v : list string) (a : aggregator) :=
  mkAgg (demo_dir a) (search_paths a) (widgets a) (data a) (app_config a)
    v (output a).
Definition emit_to (m : message) (a : aggregator) :=
  mkAgg (demo_dir a) (search_paths a) (widgets a) (data a) (app_config a)
    (visited_modules a) (m :: output a).

Definition AM (A : Type) : Type := ST aggregator Empty_set A.

Definition print (m : message) : AM unit := modify (emit_to m).

(** [load_yaml]: a malformed file is reported and read as [{}];
    [content or {}]. *)
Definition load_yaml (file_path : string) (f : file) : AM yval :=
  match f with
  | Malformed _ => print (ErrorLoading file_path) ;;; ret (YMap [])
  | Document v => ret (if truthy v then v else YMap [])
  end.

(** Lines 78-83. *)
Definition merge_widget (module_name : string) (kv : ykey * yval) : AM unit :=
  st <- get ;;
  (if ydict_mem (fst kv) (widgets st)
   then print (WarnDuplicateWidget (fst kv) module_name) else ret tt) ;;;
  modify (fun st => set_widgets (ydict_set (fst kv) (module_name, snd kv) (widgets st)) st).

(** Lines 85-90. *)
Definition merge_data (kv : ykey * yval) : AM unit :=
  st <- get ;;
  (if ydict_mem (fst kv) (data st)
   then print (WarnDuplicateData (fst kv)) else ret tt) ;;;
  modify (fun st => set_data (ydict_set (fst kv) (snd kv) (data st)) st).

(** Lines 92-94: [if 'app' in module_content: self.app_config = ...]. *)
Definition merge_app (module_content : yval) : AM unit :=
  match module_content with
  | YMap kvs =>
      match ydict_lookup (KStr "app") kvs with
      | Some v => modify (set_app v)
      | None => ret tt
      end
  | _ => raise TypeError
  end.

(** Lines 78-94: the contributions of one module. *)
Definition merge_module (module_name : string) (module_content : yval) : AM unit :=
  ws <- lift AttributeError (py_get module_content "widgets" (YMap [])) ;;
  witems <- lift AttributeError (py_items ws) ;;
  for_each witems (merge_widget module_name) ;;;
  ds <- lift AttributeError (py_get module_content "data" (YMap [])) ;;
  ditems <- lift AttributeError (py_items ds) ;;
  for_each ditems merge_data ;;;
  merge_app module_content.

(** Lines 72-74: the imports as the loop iterates them; a bare string is
    wrapped in a list. *)
Definition import_list (module_content : yval) : option (list yval) :=
  match py_get module_content "import" (YSeq []) with
  | Some (YStr s) => Some [YStr s]
  | Some imports => py_iter imports
  | None => None
  end.

(** [process_module], lines 55-94; [fuel] bounds the recursion depth. *)
Fixpoint process_module (fuel : nat) (module_name : yval) : AM unit :=
  match fuel with
  | 0 => out_of_fuel
  | S f =>
      match module_name with
      | YStr m =>
          st <- get ;;
          if mem m (visited_modules st) then ret tt
          else
            put (set_visited (m :: visited_modules st) st) ;;;
            match find_yaml_file (search_paths st) m with
            | None => print (WarnNotFound m)
            | Some (path, fl) =>
                print (Processing path) ;;;
                module_content <- load_yaml path fl ;;
                imports <- (match py_get module_content "import" (YSeq []) with
                            | Some _ => lift TypeError (import_list module_content)
                            | None => raise AttributeError
                            end) ;;
                for_each imports (process_module f) ;;;
                merge_module m module_content
            end
      | YSeq _ | YMap _ => raise TypeError
      | _ => raise AttributeError
      end
  end.

(** [result = {}; for key, value in obj.items(): result[key] = f(value)] *)
Fixpoint build_dict {A B} (f : A -> B) (kvs : list (ykey * A))
  (result : list (ykey * B)) : list (ykey * B) :=
  match kvs with
  | [] => result
  | (key, value) :: rest => build_dict f rest (ydict_set key (f value) result)
  end.

(** [process_widget_references], lines 96-111. *)
Fixpoint process_widget_references (obj : yval) : yval :=
  match obj with
  | YMap kvs => YMap (build_dict process_widget_references kvs [])
  | YSeq items => YSeq (map process_widget_references items)
  | o => o
  end.

(** The names [process_module] can be called on: the main module and the
    imports of every file of the search paths. *)
Definition file_imports (f : file) : list yval :=
  match f with
  | Malformed _ => []
  | Document v =>
      match import_list (if truthy v then v else YMap []) with
      | Some l => l
      | None => []
      end
  end.

Definition all_names (paths : list dir) (main_module : string) : list yval :=
  YStr main_module :: concat (map (fun d =>
    concat (map (fun kf => file_imports (snd kf)) (dir_files d))) paths).

Definition fuel_for (paths : list dir) (main_module : string) : nat :=
  S (length (all_names paths main_module)).

(** Lines 120-139. *)
Definition build_result (st : aggregator) : yval :=
  let result : list (ykey * yval) := [] in
  let result := if truthy (app_config st)
                then ydict_set (KStr "app") (process_widget_references (app_config st)) result
                else result in
  let result := match widgets st with
                | [] => result
                | _ => ydict_set (KStr "widgets") (YMap (build_dict (fun entry =>
                         process_widget_references (snd entry)) (widgets st) [])) result
                end in
  let result := match data st with
                | [] => result
                | _ => ydict_set (KStr "data") (YMap (build_dict process_widget_references (data st) [])) result
                end in
  YMap result.

Definition aggregate_body (fuel : nat) (main_module : string) : AM yval :=
  print (Aggregating main_module) ;;;
  process_module fuel (YStr main_module) ;;;
  st <- get ;;
  ret (build_result st).

(** [self.aggregate(main_module)]: the run and the object afterwards. *)
Definition aggregate (a : aggregator) (main_module : string) : exec Empty_set yval * aggregator :=
  aggregate_body (fuel_for (search_paths a) main_module) main_module a.

End YAMLAggregator.

(** ** Example module trees *)

(** A mapping with string keys, and a document holding one. *)
Definition smap (kvs : list (string * yval)) : yval :=
  YMap (map (fun kv => (KStr (fst kv), snd kv)) kvs).

Definition doc (kvs : list (string * yval)) : file := Document (smap kvs).

(** [main] imports [a] and [b]; [a] imports [c]; [b] and [c] both define
    widget [x]. *)
Definition dfs_fixture : dir := mkDir "demo" [
  ("main.yaml", doc [("import", YSeq [YStr "a"; YStr "b"])]);
  ("a.yaml", doc [("import", YSeq [YStr "c"])]);
  ("b.yaml", doc [("widgets", smap [("x", YStr "from_b")])]);
  ("c.yaml", doc [("widgets", smap [("x", YStr "from_c")])])].

(** A builtin directory with the bootstrap module [builtin]. *)
Definition builtin_dir : dir := mkDir "frontend/layouts" [
  ("builtin.yaml", doc [("widgets", smap [("text", smap [("type", YStr "text")])])])].

(** [main] imports the bare string [foo]. *)
Definition bare_import_dir : dir := mkDir "demo" [
  ("main.yaml", doc [("import", YStr "foo"); ("app", smap [("title", YStr "t")])]);
  ("foo.yaml", doc [("widgets", smap [("w", YStr "from_foo")])])].

(** [main] imports [bad], whose file is malformed, and [good]. *)
Definition malformed_dir : dir := mkDir "demo" [
  ("main.yaml", doc [("import", YSeq [YStr "bad"; YStr "good"])]);
  ("bad.yaml", Malformed "mapping values are not allowed here");
  ("good.yaml", doc [("widgets", smap [("w", YStr "from_good")])])].

(** [main] imports [a]; both contribute an app block. *)
Definition two_apps_dir : dir := mkDir "demo" [
  ("main.yaml", doc [("import", YSeq [YStr "a"]); ("app", smap [("title", YStr "main")]);
                     ("widgets", smap [("w", YInt 1)])]);
  ("a.yaml", doc [("app", smap [("title", YStr "a")])])].


(** [main] is an empty file. *)
Definition empty_main_dir : dir := mkDir "demo" [("main.yaml", Document YNull)].

(** A single module with an app block and a widget. *)
Definition single_dir : dir := mkDir "demo" [
  ("main.yaml", doc [("app", smap [("title", YStr "t")]); ("widgets", smap [("w", YInt 1)])])].


(** [main] imports [a] and [a.b]; [a] defines the dotted widget name [b.c],
    [a.b] (file [a/b.yaml]) defines [c]. *)
Definition dotted_dir : dir := mkDir "demo" [
  ("main.yaml", doc [("import", YSeq [YStr "a"; YStr "a.b"]); ("app", smap [("title", YStr "t")])]);
  ("a.yaml", doc [("widgets", smap [("b.c", YInt 1)])]);
  ("a/b.yaml", doc [("widgets", smap [("c", YInt 2)])])].

(** [main] defines the widgets [1] (an integer key) and ['1'] (a string
    key). *)
Definition int_key_dir : dir := mkDir "demo" [
  ("main.yaml", Document (YMap [(KStr "widgets", YMap [(KInt 1, YStr "int"); (KStr "1", YStr "str")]);
                                (KStr "app", smap [("title", YStr "t")])]))].


(** ** Well-formed documents

    A dict returned by [yaml.safe_load] has pairwise distinct keys (under
    [==]), at every level of nesting. *)

Fixpoint keys_unique (ks : list string) : bool :=
  match ks with
  | [] => true
  | k :: r => negb (mem k r) && keys_unique r
  end.

Fixpoint ykeys_unique (ks : list ykey) : bool :=
  match ks with
  | [] => true
  | k :: r => negb (existsb (key_eqb k) r) && ykeys_unique r
  end.

Fixpoint well_formed (v : yval) : bool :=
  match v with
  | YSeq l =>
      (fix go (l : list yval) : bool :=
         match l with [] => true | x :: r => well_formed x && go r end) l
  | YMap kvs =>
      ykeys_unique (map fst kvs) &&
      (fix go (kvs : list (ykey * yval)) : bool :=
         match kvs with [] => true | (_, x) :: r => well_formed x && go r end) kvs
  | _ => true
  end.

(** A widget name without a dot. *)
Fixpoint no_dot (s : string) : bool :=
  match s with
  | EmptyString => true
  | String c r => negb (Ascii.eqb c "."%char) && no_dot r
  end.

(** The [widgets] mapping of a module, if any, has keys whose f-string
    renderings are distinct and dot-free. *)
Definition widget_names_ok (module_content : yval) : bool :=
  match py_get module_content "widgets" (YMap []) with
  | Some (YMap ws) =>
      keys_unique (map key_str (map fst ws)) && forallb no_dot (map key_str (map fst ws))
  | _ => true
  end.

(** Every module file of the search paths, as [Lang] reads it, satisfies
    [widget_names_ok]. *)
Definition paths_ok (paths : list dir) : bool :=
  forallb (fun d => forallb (fun kf =>
    match snd kf with
    | Document v => widget_names_ok (if is_none v then YMap [] else v)
    | Malformed _ => true
    end) (dir_files d)) paths.

(** Names reachable from the seeds of [Lang.load_main_module], following the
    entries the loop appends for each located module file. *)
Inductive lang_reach (paths : list dir) (seeds : list yval) : string -> Prop :=
| lang_reach_seed : forall s, In (YStr s) seeds -> lang_reach paths seeds s
| lang_reach_import : forall s p v t,
    lang_reach paths seeds s ->
    find_yaml_file paths s = Some (p, Document v) ->
    In (YStr t) (Lang.pushed v) -> lang_reach paths seeds t.

(** Names reachable from the main module of [YAMLAggregator.aggregate],
    following the imports that [process_module] iterates for each located
    module file. *)
Inductive agg_reach (paths : list dir) (main_module : string) : string -> Prop :=
| agg_reach_main : agg_reach paths main_module main_module
| agg_reach_import : forall s p fl t,
    agg_reach paths main_module s ->
    find_yaml_file paths s = Some (p, fl) ->
    In (YStr t) (YAMLAggregator.file_imports fl) -> agg_reach paths main_module t.

(** The entries of [l] that name a module not in [V], each weighted by [c]. *)
Definition pending (c : yval -> nat) (V : list string) (l : list yval) : nat :=
  list_sum (map (fun y => match y with
                          | YStr t => if mem t V then 0 else c y
                          | _ => 0
                          end) l).

(** The entries of a section ([widgets], [data]) of a module's content,
    as the merge loops iterate them. *)
Definition content_items (name : string) (content : yval) : list (ykey * yval) :=
  match py_get content name (YMap []) with
  | Some (YMap kvs) => kvs
  | _ => []
  end.

(** Everything a [Lang] frame stores comes from the file of a visited
    module: a widget [m.w] from the [widgets] of [m], a data entry from the
    [data] of its module, the app block from the [app] of its module. *)
Definition lang_prov (P : list dir) (fr : Lang.frame) : Prop :=
  (forall k d, dict_lookup k (Lang.widget_definitions (Lang.self fr)) = Some d ->
     exists m p v w, In m (Lang.visited fr) /\ find_yaml_file P m = Some (p, Document v) /\
       In (w, d) (content_items "widgets" (if is_none v then YMap [] else v)) /\
       k = (m ++ "." ++ key_str w)%string) /\
  (forall k d, In (k, d) (Lang.data_definitions (Lang.self fr)) ->
     exists m p v, In m (Lang.visited fr) /\ find_yaml_file P m = Some (p, Document v) /\
       In (k, d) (content_items "data" (if is_none v then YMap [] else v))) /\
  (is_none (Lang.app_config (Lang.self fr)) = false ->
     exists m p v, In m (Lang.visited fr) /\ find_yaml_file P m = Some (p, Document v) /\
       py_get (if is_none v then YMap [] else v) "app" YNull =
         Some (Lang.app_config (Lang.self fr))).

(** Every widget of every visited module file is stored under its
    qualified name. *)
Definition lang_complete (P : list dir) (fr : Lang.frame) : Prop :=
  forall m p v w, In m (Lang.visited fr) -> find_yaml_file P m = Some (p, Document v) ->
    In w (map fst (content_items "widgets" (if is_none v then YMap [] else v))) ->
    In (m ++ "." ++ key_str w)%string (map fst (Lang.widget_definitions (Lang.self fr))).

(** The lines of the aggregator that report a visited module. *)
Definition reports_visit (msg : YAMLAggregator.message) : bool :=
  match msg with
  | YAMLAggregator.Processing _ | YAMLAggregator.WarnNotFound _ => true
  | _ => false
  end.

Definition visit_reports (out : list YAMLAggregator.message) : nat :=
  length (filter reports_visit out).

(** ** General lemmas *)

Open Scope list_scope.

Section YvalInd.
Variable P : yval -> Prop.
Hypothesis HNull : P YNull.
Hypothesis HBool : forall b, P (YBool b).
Hypothesis HInt : forall z, P (YInt z).
Hypothesis HStr : forall s, P (YStr s).
Hypothesis HSeq : forall l, Forall P l -> P (YSeq l).
Hypothesis HMap : forall kvs, Forall (fun kv => P (snd kv)) kvs -> P (YMap kvs).

Fixpoint yval_nested_ind (v : yval) : P v :=
  match v with
  | YNull => HNull
  | YBool b => HBool b
  | YInt z => HInt z
  | YStr s => HStr s
  | YSeq l =>
      HSeq l ((fix go (l : list yval) : Forall P l :=
                 match l with
                 | [] => Forall_nil _
                 | x :: r => Forall_cons x (yval_nested_ind x) (go r)
                 end) l)
  | YMap kvs =>
      HMap kvs ((fix go (kvs : list (ykey * yval))
                   : Forall (fun kv => P (snd kv)) kvs :=
                   match kvs with
                   | [] => Forall_nil _
                   | (k, x) :: r => Forall_cons (k, x) (yval_nested_ind x) (go r)
                   end) kvs)
  end.
End YvalInd.

Lemma mem_In : forall s l, mem s l = true <-> In s l.
Proof.
  intros s l. unfold mem. rewrite existsb_exists. split.
  - intros [x [Hx Heq]]. apply String.eqb_eq in Heq. subst. exact Hx.
  - intros H. exists s. split; [exact H | apply String.eqb_refl].
Qed.

Lemma dict_lookup_In {A} : forall k (d : list (string * A)),
  dict_lookup k d = None <-> ~ In k (map fst d).
Proof.
  induction d as [| [k' v'] d' IH]; simpl.
  - tauto.
  - destruct (String.eqb_spec k k') as [-> | Hne].
    + split; [discriminate | intros H; exfalso; apply H; left; reflexivity].
    + rewrite IH. split; intros H; [intros [E | E]; [congruence | tauto] | tauto].
Qed.

Lemma dict_mem_In {A} : forall k (d : list (string * A)),
  dict_mem k d = true <-> In k (map fst d).
Proof.
  intros k d. unfold dict_mem. destruct (dict_lookup k d) eqn:E.
  - split; [intros _ | reflexivity].
    destruct (in_dec String.string_dec k (map fst d)) as [H | H]; [exact H |].
    apply dict_lookup_In in H. congruence.
  - apply dict_lookup_In in E. split; [discriminate | tauto].
Qed.

(** Setting a new key appends it. *)
Lemma dict_set_new {A} : forall k (v : A) d,
  ~ In k (map fst d) -> dict_set k v d = d ++ [(k, v)].
Proof.
  induction d as [| [k' v'] d' IH]; simpl; intros H; [reflexivity |].
  destruct (String.eqb_spec k k') as [-> | Hne]; [exfalso; tauto |].
  rewrite IH by tauto. reflexivity.
Qed.

Lemma dict_set_keys {A} : forall k (v : A) d,
  map fst (dict_set k v d) = if dict_mem k d then map fst d else map fst d ++ [k].
Proof.
  induction d as [| [k' v'] d' IH]; simpl; [reflexivity |].
  unfold dict_mem in *. simpl.
  destruct (String.eqb_spec k k') as [-> | Hne]; simpl; [reflexivity |].
  rewrite IH. destruct (dict_lookup k d'); reflexivity.
Qed.

Lemma dict_lookup_set_same {A} : forall k (v : A) d,
  dict_lookup k (dict_set k v d) = Some v.
Proof.
  induction d as [| [k' v'] d' IH]; simpl.
  - rewrite String.eqb_refl. reflexivity.
  - destruct (String.eqb_spec k k') as [-> | Hne]; simpl.
    + rewrite String.eqb_refl. reflexivity.
    + apply String.eqb_neq in Hne. rewrite Hne. exact IH.
Qed.

Lemma dict_lookup_set_other {A} : forall k k' (v : A) d,
  k' <> k -> dict_lookup k' (dict_set k v d) = dict_lookup k' d.
Proof.
  induction d as [| [k'' v'] d' IH]; simpl; intros Hne.
  - apply String.eqb_neq in Hne. rewrite Hne. reflexivity.
  - destruct (String.eqb_spec k k'') as [-> | Hne']; simpl.
    + apply String.eqb_neq in Hne. rewrite Hne. reflexivity.
    + destruct (String.eqb k' k''); [reflexivity | exact (IH Hne)].
Qed.

Lemma keys_unique_NoDup : forall ks, keys_unique ks = true <-> NoDup ks.
Proof.
  induction ks as [| k r IH]; simpl.
  - split; [constructor | reflexivity].
  - rewrite andb_true_iff, negb_true_iff, IH. split.
    + intros [H1 H2]. constructor; [| exact H2].
      intros Hin. apply mem_In in Hin. congruence.
    + intros H. inversion H as [| ? ? Hn Hd]; subst. split; [| exact Hd].
      destruct (mem k r) eqn:E; [apply mem_In in E; tauto | reflexivity].
Qed.

(** *** Dicts keyed by document keys *)

Lemma ykey_eqb_spec : forall k k', ykey_eqb k k' = true <-> k = k'.
Proof.
  intros [s | z | b |] [s' | z' | b' |]; simpl;
    try (split; [discriminate | intros H; discriminate H]).
  - rewrite String.eqb_eq. split; intros H; [subst | injection H as H]; auto.
  - rewrite Z.eqb_eq. split; intros H; [subst | injection H as H]; auto.
  - rewrite Bool.eqb_true_iff. split; intros H; [subst | injection H as H]; auto.
  - split; reflexivity.
Qed.

Lemma key_eqb_spec : forall k k', key_eqb k k' = true <-> key_norm k = key_norm k'.
Proof. intros k k'. apply ykey_eqb_spec. Qed.

Lemma key_eqb_refl : forall k, key_eqb k k = true.
Proof. intros k. apply key_eqb_spec. reflexivity. Qed.

Lemma key_eqb_sym : forall k k', key_eqb k k' = key_eqb k' k.
Proof.
  intros k k'. destruct (key_eqb k' k) eqn:E, (key_eqb k k') eqn:E'; try reflexivity.
  - apply key_eqb_spec in E. rewrite <- E'. apply key_eqb_spec. congruence.
  - apply key_eqb_spec in E'. rewrite <- E. symmetry. apply key_eqb_spec. congruence.
Qed.

Lemma key_eqb_false : forall k k', key_eqb k k' = false <-> key_norm k <> key_norm k'.
Proof.
  intros k k'. rewrite <- key_eqb_spec. destruct (key_eqb k k'); split; congruence.
Qed.

Lemma ykey_dec : forall a b : ykey, {a = b} + {a <> b}.
Proof. decide equality; first [apply string_dec | apply Z.eq_dec | apply bool_dec]. Defined.

(** The dict identities of a list of entries. *)
Definition knorms {A} (d : list (ykey * A)) : list ykey := map (fun kv => key_norm (fst kv)) d.

Lemma ydict_lookup_In {A} : forall k (d : list (ykey * A)),
  ydict_lookup k d = None <-> ~ In (key_norm k) (knorms d).
Proof.
  induction d as [| [k' v'] d' IH]; simpl.
  - tauto.
  - destruct (key_eqb k k') eqn:E.
    + apply key_eqb_spec in E. split; [discriminate | intros H; exfalso; apply H; left; congruence].
    + apply key_eqb_false in E. rewrite IH.
      split; intros H; [intros [H' | H']; [congruence | tauto] | tauto].
Qed.

Lemma ydict_mem_In {A} : forall k (d : list (ykey * A)),
  ydict_mem k d = true <-> In (key_norm k) (knorms d).
Proof.
  intros k d. unfold assoc_mem. destruct (ydict_lookup k d) eqn:E.
  - split; [intros _ | reflexivity].
    destruct (in_dec ykey_dec (key_norm k) (knorms d)) as [H | H]; [exact H |].
    apply ydict_lookup_In in H. congruence.
  - apply ydict_lookup_In in E. split; [discriminate | tauto].
Qed.

Lemma ydict_set_new {A} : forall k (v : A) d,
  ~ In (key_norm k) (knorms d) -> ydict_set k v d = d ++ [(k, v)].
Proof.
  induction d as [| [k' v'] d' IH]; simpl; intros H; [reflexivity |].
  destruct (key_eqb k k') eqn:E.
  - exfalso. apply H. left. apply key_eqb_spec in E. congruence.
  - rewrite IH by tauto. reflexivity.
Qed.


Lemma ydict_lookup_set_same {A} : forall k (v : A) d,
  ydict_lookup k (ydict_set k v d) = Some v.
Proof.
  induction d as [| [k' v'] d' IH]; simpl.
  - rewrite key_eqb_refl. reflexivity.
  - destruct (key_eqb k k') eqn:E; simpl; rewrite E; [reflexivity | exact IH].
Qed.

Lemma ydict_lookup_set_eq {A} : forall k k' (v : A) d,
  key_norm k' = key_norm k -> ydict_lookup k' (ydict_set k v d) = Some v.
Proof.
  intros k k' v d Heq.
  induction d as [| [k'' v'] d' IH]; simpl.
  - replace (key_eqb k' k) with true by (symmetry; apply key_eqb_spec; exact Heq). reflexivity.
  - destruct (key_eqb k k'') eqn:E; simpl.
    + apply key_eqb_spec in E.
      replace (key_eqb k' k'') with true by (symmetry; apply key_eqb_spec; congruence). reflexivity.
    + apply key_eqb_false in E.
      replace (key_eqb k' k'') with false by (symmetry; apply key_eqb_false; congruence). exact IH.
Qed.

Lemma ydict_lookup_set_other {A} : forall k k' (v : A) d,
  key_norm k' <> key_norm k -> ydict_lookup k' (ydict_set k v d) = ydict_lookup k' d.
Proof.
  intros k k' v d Hne. apply key_eqb_false in Hne.
  induction d as [| [k'' v'] d' IH]; simpl.
  - rewrite Hne. reflexivity.
  - destruct (key_eqb k k'') eqn:E; simpl.
    + apply key_eqb_spec in E. assert (E' : key_eqb k' k'' = false).
      { apply key_eqb_false. apply key_eqb_false in Hne. congruence. }
      rewrite E'. reflexivity.
    + destruct (key_eqb k' k''); [reflexivity | exact IH].
Qed.

(** An entry after [d[k] = v] was there before, or holds [v] under a key
    equal to [k]. *)
Lemma ydict_set_In {A} : forall k (v : A) d kv,
  In kv (ydict_set k v d) -> In kv d \/ (snd kv = v /\ key_eqb k (fst kv) = true).
Proof.
  induction d as [| [k' v'] d' IH]; simpl; intros kv H.
  - destruct H as [<- | []]. right. split; [reflexivity | apply key_eqb_refl].
  - destruct (key_eqb k k') eqn:E; destruct H as [<- | H].
    + right. split; [reflexivity | exact E].
    + left. right. exact H.
    + left. left. reflexivity.
    + destruct (IH kv H) as [H' | H']; [left; right; exact H' | right; exact H'].
Qed.

Lemma ykeys_unique_NoDup : forall ks, ykeys_unique ks = true <-> NoDup (map key_norm ks).
Proof.
  induction ks as [| k r IH]; simpl.
  - split; [constructor | reflexivity].
  - rewrite andb_true_iff, negb_true_iff, IH. split.
    + intros [H1 H2]. constructor; [| exact H2].
      intros Hin. apply in_map_iff in Hin as (k' & Hk & Hin).
      assert (Hx : existsb (key_eqb k) r = true)
        by (apply existsb_exists; exists k'; split; [exact Hin | apply key_eqb_spec; congruence]).
      congruence.
    + intros H. inversion H as [| ? ? Hn Hd]; subst. split; [| exact Hd].
      destruct (existsb (key_eqb k) r) eqn:E; [| reflexivity].
      apply existsb_exists in E as (k' & Hin & Hk). apply key_eqb_spec in Hk.
      exfalso. apply Hn. apply in_map_iff. exists k'. split; [congruence | exact Hin].
Qed.

Lemma knorms_map_fst {A} : forall (d : list (ykey * A)), knorms d = map key_norm (map fst d).
Proof. intros d. unfold knorms. rewrite map_map. reflexivity. Qed.

Lemma build_dict_identity : forall kvs acc,
  Forall (fun kv => YAMLAggregator.process_widget_references (snd kv) = snd kv) kvs ->
  NoDup (knorms kvs) ->
  (forall k, In k (knorms kvs) -> ~ In k (knorms acc)) ->
  YAMLAggregator.build_dict YAMLAggregator.process_widget_references kvs acc = acc ++ kvs.
Proof.
  induction kvs as [| [k v] rest IH]; intros acc Hf Hnd Hdis; simpl.
  - rewrite app_nil_r. reflexivity.
  - inversion Hf as [| ? ? Hv Hrest]; subst. simpl in Hv. rewrite Hv.
    inversion Hnd as [| ? ? Hk Hnd']; subst.
    rewrite ydict_set_new by (apply Hdis; left; reflexivity).
    rewrite IH; [rewrite <- app_assoc; reflexivity | exact Hrest | exact Hnd' |].
    intros k' Hin. unfold knorms. rewrite map_app, in_app_iff. simpl. intros [Ha | [Hb | []]].
    + apply (Hdis k'); [right; exact Hin | exact Ha].
    + subst. contradiction.
Qed.

Lemma process_widget_references_wf : forall v,
  well_formed v = true -> YAMLAggregator.process_widget_references v = v.
Proof.
  apply (yval_nested_ind (fun v => well_formed v = true ->
                                   YAMLAggregator.process_widget_references v = v));
    try reflexivity.
  - intros l Hall Hwf. simpl. f_equal. simpl in Hwf.
    induction Hall as [| x r Hx Hr IHr]; [reflexivity |].
    apply andb_true_iff in Hwf as [Hw1 Hw2]. simpl. rewrite (Hx Hw1). f_equal. exact (IHr Hw2).
  - intros kvs Hall Hwf. simpl in Hwf |- *.
    apply andb_true_iff in Hwf as [Hk Hw]. apply ykeys_unique_NoDup in Hk.
    rewrite <- knorms_map_fst in Hk.
    f_equal. apply build_dict_identity; [| exact Hk | intros; simpl; tauto].
    clear Hk. induction Hall as [| [k x] r Hx Hr IHr]; constructor.
    + simpl in Hw |- *. apply andb_true_iff in Hw as [Hw1 _]. exact (Hx Hw1).
    + simpl in Hw. apply andb_true_iff in Hw as [_ Hw2]. exact (IHr Hw2).
Qed.

Lemma no_dot_app : forall a b, no_dot (a ++ b)%string = no_dot a && no_dot b.
Proof.
  induction a as [| c a IH]; intros b; simpl; [reflexivity |].
  rewrite IH, andb_assoc. reflexivity.
Qed.

(** [f"{m}.{w}"] determines [m] and [w] when [w] has no dot. *)
Lemma qualified_name_inj : forall m c w w',
  no_dot w = true -> no_dot w' = true ->
  (m ++ "." ++ w)%string = (c ++ "." ++ w')%string -> m = c /\ w = w'.
Proof.
  induction m as [| x m IH]; intros c w w' Hw Hw' H; destruct c as [| y c]; simpl in H.
  - injection H as ->. split; reflexivity.
  - injection H as <- Hc. subst w. rewrite no_dot_app in Hw. simpl in Hw.
    rewrite andb_false_r in Hw. discriminate.
  - injection H as -> Hm. subst w'. rewrite no_dot_app in Hw'. simpl in Hw'.
    rewrite andb_false_r in Hw'. discriminate.
  - injection H as -> Hm. destruct (IH c w w' Hw Hw' Hm) as [-> ->].
    split; reflexivity.
Qed.

Lemma find_yaml_file_in : forall paths m p f,
  find_yaml_file paths m = Some (p, f) ->
  exists d rel, In d paths /\ In (rel, f) (dir_files d).
Proof.
  induction paths as [| d ds IH]; intros m p f H; simpl in H; [discriminate |].
  destruct (dict_lookup _ (dir_files d)) as [f' |] eqn:E.
  - injection H as _ <-. exists d.
    assert (Hin : forall k (l : list (string * file)) v,
               dict_lookup k l = Some v -> In (k, v) l).
    { intros k l v. induction l as [| [k' v'] l' IHl]; simpl; [discriminate |].
      destruct (String.eqb_spec k k') as [-> | _];
        [intros Hv; injection Hv as ->; left; reflexivity | intros; right; auto]. }
    eexists. split; [left; reflexivity | apply Hin; exact E].
  - destruct (IH m p f H) as (d' & rel & Hd & Hf). exists d', rel.
    split; [right; exact Hd | exact Hf].
Qed.

Lemma paths_ok_find : forall paths m p v,
  paths_ok paths = true ->
  find_yaml_file paths m = Some (p, Document v) ->
  widget_names_ok (if is_none v then YMap [] else v) = true.
Proof.
  intros paths m p v Hok Hf.
  destruct (find_yaml_file_in paths m p _ Hf) as (d & rel & Hd & Hin).
  unfold paths_ok in Hok. rewrite forallb_forall in Hok.
  specialize (Hok d Hd). rewrite forallb_forall in Hok.
  exact (Hok (rel, Document v) Hin).
Qed.

Lemma bind_split {S R A B} : forall (m : ST S R A) (k : A -> ST S R B) s e s',
  m s = (e, s') ->
  bind m k s = match e with
               | Normal a => k a s'
               | Return r => (Return r, s')
               | Raise x => (Raise x, s')
               | NoFuel => (NoFuel, s')
               end.
Proof. intros m k s e s' H. unfold bind. rewrite H. reflexivity. Qed.

(** ** The permissive merge *)

Lemma bind_ret_l {S R A B} : forall (a : A) (k : A -> ST S R B) s,
  bind (ret a) k s = k a s.
Proof. reflexivity. Qed.

Lemma bind_normal {S R A B} : forall (m : ST S R A) (k : A -> ST S R B) s a s',
  m s = (Normal a, s') -> bind m k s = k a s'.
Proof. intros m k s a s' H. unfold bind. rewrite H. reflexivity. Qed.

(** A property of the state that a computation keeps, however it ends. *)
Definition preserves {S R A} (I : S -> Prop) (m : ST S R A) : Prop :=
  forall s, I s -> I (snd (m s)).

Lemma preserves_ret {S R A} (I : S -> Prop) (a : A) : preserves (R:=R) I (ret a).
Proof. intros s H. exact H. Qed.

Lemma preserves_get {S R} (I : S -> Prop) : preserves (R:=R) I get.
Proof. intros s H. exact H. Qed.

Lemma preserves_early_return {S R A} (I : S -> Prop) (r : R) :
  preserves (A:=A) I (early_return r).
Proof. intros s H. exact H. Qed.

Lemma preserves_raise {S R A} (I : S -> Prop) e : preserves (R:=R) (A:=A) I (raise e).
Proof. intros s H. exact H. Qed.

Lemma preserves_out_of_fuel {S R A} (I : S -> Prop) : preserves (R:=R) (A:=A) I out_of_fuel.
Proof. intros s H. exact H. Qed.

Lemma preserves_lift {S R A} (I : S -> Prop) e (o : option A) :
  preserves (R:=R) I (lift e o).
Proof. destruct o; intros s H; exact H. Qed.

Lemma preserves_modify {S R} (I : S -> Prop) (f : S -> S) :
  (forall s, I s -> I (f s)) -> preserves (R:=R) I (modify f).
Proof. intros Hf s H. exact (Hf s H). Qed.

Lemma preserves_put {S R} (I : S -> Prop) (s' : S) :
  I s' -> preserves (R:=R) I (put s').
Proof. intros Hs s _. exact Hs. Qed.

Lemma preserves_bind {S R A B} (I : S -> Prop) (m : ST S R A) (k : A -> ST S R B) :
  preserves I m -> (forall a, preserves I (k a)) -> preserves I (bind m k).
Proof.
  intros Hm Hk s H. unfold bind. specialize (Hm s H).
  destruct (m s) as [[a | r | e |] s']; simpl in *; auto. exact (Hk a s' Hm).
Qed.

(** [get] followed by a computation that may depend on the state read. *)
Lemma preserves_bind_get {S R B} (I : S -> Prop) (k : S -> ST S R B) :
  (forall s, I s -> preserves I (k s)) -> preserves I (bind get k).
Proof. intros Hk s H. exact (Hk s H s H). Qed.

Lemma preserves_for_each {S R A} (I : S -> Prop) (l : list A) (body : A -> ST S R unit) :
  (forall x, preserves I (body x)) -> preserves I (for_each l body).
Proof.
  intros Hb. induction l as [| x l IH]; simpl.
  - apply preserves_ret.
  - apply preserves_bind; [apply Hb | intros; exact IH].
Qed.

Ltac preserve_step :=
  match goal with
  | |- preserves _ (bind get _) => apply preserves_bind_get; intros ? ?
  | |- preserves _ (bind _ _) => apply preserves_bind; [| intros ?]
  | |- preserves _ (ret _) => apply preserves_ret
  | |- preserves _ get => apply preserves_get
  | |- preserves _ (early_return _) => apply preserves_early_return
  | |- preserves _ (raise _) => apply preserves_raise
  | |- preserves _ out_of_fuel => apply preserves_out_of_fuel
  | |- preserves _ (lift _ _) => apply preserves_lift
  | |- preserves _ (for_each _ _) => apply preserves_for_each; intros ?
  | |- preserves _ (if _ then _ else _) => destruct_if
  | |- preserves _ (match ?x with _ => _ end) => destruct x eqn:?
  end
with destruct_if :=
  match goal with
  | |- preserves _ (if ?b then _ else _) => destruct b eqn:?
  end.

Lemma bind_normal_inv {S R A B} : forall (m : ST S R A) (k : A -> ST S R B) s b s'',
  bind m k s = (Normal b, s'') ->
  exists a s', m s = (Normal a, s') /\ k a s' = (Normal b, s'').
Proof.
  intros m k s b s'' H. unfold bind in H.
  destruct (m s) as [[a | r | e |] s']; try discriminate. eauto.
Qed.

(** A computation that never ends by [return r]. *)
Definition never_returns {S R A} (r : R) (m : ST S R A) : Prop :=
  forall s, fst (m s) <> Return r.

Lemma never_returns_bind {S R A B} (r : R) (m : ST S R A) (k : A -> ST S R B) :
  never_returns r m -> (forall a, never_returns r (k a)) -> never_returns r (bind m k).
Proof.
  intros Hm Hk s. unfold bind. specialize (Hm s).
  destruct (m s) as [[a | r' | e |] s']; simpl in *; try discriminate;
    [exact (Hk a s') |].
  intros H. injection H as ->. apply Hm. reflexivity.
Qed.

Lemma never_returns_for_each {S R A} (r : R) (l : list A) (body : A -> ST S R unit) :
  (forall x, never_returns r (body x)) -> never_returns r (for_each l body).
Proof.
  intros Hb. induction l as [| x l IH]; simpl.
  - intros s. discriminate.
  - apply never_returns_bind; [apply Hb | intros; exact IH].
Qed.

Ltac never_step :=
  match goal with
  | |- never_returns _ (bind _ _) => apply never_returns_bind; [| intros ?]
  | |- never_returns _ (for_each _ _) => apply never_returns_for_each; intros ?
  | |- never_returns _ (if ?b then _ else _) => destruct b
  | |- never_returns _ (match ?x with _ => _ end) => destruct x
  | |- never_returns _ _ => intros ?; discriminate
  end.

(** A computation that never runs out of fuel. *)
Definition never_nofuel {S R A} (m : ST S R A) : Prop :=
  forall s, fst (m s) <> NoFuel.

Lemma never_nofuel_bind {S R A B} (m : ST S R A) (k : A -> ST S R B) :
  never_nofuel m -> (forall a, never_nofuel (k a)) -> never_nofuel (bind m k).
Proof.
  intros Hm Hk s. unfold bind. specialize (Hm s).
  destruct (m s) as [[a | r | e |] s']; simpl in *; try discriminate;
    [exact (Hk a s') | exfalso; apply Hm; reflexivity].
Qed.

Lemma never_nofuel_for_each {S R A} (l : list A) (body : A -> ST S R unit) :
  (forall x, never_nofuel (body x)) -> never_nofuel (for_each l body).
Proof.
  intros Hb. induction l as [| x l IH]; simpl.
  - intros s. discriminate.
  - apply never_nofuel_bind; [apply Hb | intros; exact IH].
Qed.

Ltac nofuel_step :=
  match goal with
  | |- never_nofuel (bind _ _) => apply never_nofuel_bind; [| intros ?]
  | |- never_nofuel (for_each _ _) => apply never_nofuel_for_each; intros ?
  | |- never_nofuel (if ?b then _ else _) => destruct b
  | |- never_nofuel (match ?x with _ => _ end) => destruct x
  | |- never_nofuel _ => intros ?; discriminate
  end.

(** A state property carried through [for_each] by bodies that keep it for
    the elements of the list. *)
Lemma preserves_for_each_in {S R A} (I : S -> Prop) (l : list A) (body : A -> ST S R unit) :
  (forall x, In x l -> preserves I (body x)) -> preserves I (for_each l body).
Proof.
  induction l as [| x l IH]; intros Hb; simpl.
  - apply preserves_ret.
  - apply preserves_bind; [apply Hb; left; reflexivity |].
    intros _. apply IH. intros y Hy. apply Hb. right. exact Hy.
Qed.

Lemma preserves_out {S R A} (I : S -> Prop) (m : ST S R A) s e s' :
  preserves I m -> m s = (e, s') -> I s -> I s'.
Proof. intros Hm E H. specialize (Hm s H). rewrite E in Hm. exact Hm. Qed.

Lemma mem_cons : forall t s V, mem t (s :: V) = String.eqb t s || mem t V.
Proof. reflexivity. Qed.

Lemma pending_mono : forall c V W l, incl V W -> pending c W l <= pending c V l.
Proof.
  intros c V W l HVW. unfold pending. induction l as [| y l IH]; simpl; [lia |].
  destruct y; try lia.
  destruct (mem s V) eqn:MV.
  - apply mem_In, HVW, mem_In in MV. rewrite MV. lia.
  - destruct (mem s W); lia.
Qed.

Lemma pending_visit : forall c V m l,
  In (YStr m) l -> mem m V = false -> pending c (m :: V) l + c (YStr m) <= pending c V l.
Proof.
  intros c V m l Hin Hm. induction l as [| y l IH]; [destruct Hin |].
  assert (Hle : pending c (m :: V) l <= pending c V l)
    by (apply pending_mono; intros x Hx; right; exact Hx).
  unfold pending in *.
  destruct Hin as [Heq | Hin]; [subst y |]; unfold list_sum in *; cbn [fold_right map] in *.
  - rewrite mem_cons, String.eqb_refl. simpl orb. rewrite Hm. lia.
  - specialize (IH Hin). destruct y; try lia.
    rewrite mem_cons. destruct (String.eqb s m), (mem s V); cbn [orb]; lia.
Qed.

Lemma pending_le : forall c V l, pending c V l <= list_sum (map c l).
Proof.
  intros c V l. unfold pending. induction l as [| y l IH]; simpl; [lia |].
  destruct y; try lia. destruct (mem s V); lia.
Qed.

Lemma in_yaml_entries {B} : forall (g : file -> list B) paths m p f x,
  find_yaml_file paths m = Some (p, f) -> In x (g f) ->
  In x (concat (map (fun d => concat (map (fun kf => g (snd kf)) (dir_files d))) paths)).
Proof.
  intros g paths m p f x Hf Hx.
  destruct (find_yaml_file_in paths m p f Hf) as (d & rel & Hd & Hrel).
  apply in_concat. exists (concat (map (fun kf => g (snd kf)) (dir_files d))).
  split; [apply in_map_iff; exists d; split; [reflexivity | exact Hd] |].
  apply in_concat. exists (g f). split; [| exact Hx].
  apply in_map_iff. exists (rel, f). split; [reflexivity | exact Hrel].
Qed.

Module AggFacts.
Import YAMLAggregator.

Lemma merge_widget_eq : forall m k d st,
  merge_widget m (k, d) st =
  (Normal tt, set_widgets (ydict_set k (m, d) (widgets st))
                (if ydict_mem k (widgets st)
                 then emit_to (WarnDuplicateWidget k m) st else st)).
Proof.
  intros. unfold merge_widget, bind, get, modify, print, ret; simpl.
  destruct (ydict_mem k (widgets st)); reflexivity.
Qed.

Lemma merge_widgets_lookup : forall m ws st,
  NoDup (knorms ws) ->
  let '(e, st') := for_each ws (merge_widget m) st in
  e = Normal tt /\
  data st' = data st /\ app_config st' = app_config st /\
  visited_modules st' = visited_modules st /\ search_paths st' = search_paths st /\
  forall k, ydict_lookup k (widgets st') =
    match ydict_lookup k ws with
    | Some d => Some (m, d)
    | None => ydict_lookup k (widgets st)
    end.
Proof.
  induction ws as [| [k d] r IH]; intros st Hnd; simpl.
  - repeat split; reflexivity.
  - inversion Hnd as [| ? ? Hk Hnd']; subst.
    erewrite bind_normal by apply merge_widget_eq.
    set (st1 := if ydict_mem k (widgets st) then _ else st).
    assert (Hst1 : widgets st1 = widgets st /\ data st1 = data st /\
                   app_config st1 = app_config st /\
                   visited_modules st1 = visited_modules st /\
                   search_paths st1 = search_paths st)
      by (subst st1; destruct (ydict_mem k (widgets st)); repeat split).
    specialize (IH (set_widgets (ydict_set k (m, d) (widgets st)) st1) Hnd').
    destruct (for_each r (merge_widget m) _) as [e st'].
    destruct IH as (He & Hd & Ha & Hv & Hs & Hw). simpl in Hd, Ha, Hv, Hs.
    destruct Hst1 as (Hw1 & Hd1 & Ha1 & Hv1 & Hs1).
    repeat split; try congruence.
    intros k'. rewrite Hw. simpl.
    destruct (key_eqb k' k) eqn:E.
    + apply key_eqb_spec in E. simpl in Hk.
      assert (N : ydict_lookup k' r = None) by (apply ydict_lookup_In; rewrite E; exact Hk).
      rewrite N. apply ydict_lookup_set_eq. exact E.
    + destruct (ydict_lookup k' r); [reflexivity |].
      apply ydict_lookup_set_other. apply key_eqb_false. exact E.
Qed.

Lemma merge_data_keeps_widgets : forall W kv,
  preserves (fun s => widgets s = W) (merge_data kv).
Proof.
  intros W kv. unfold merge_data, print.
  repeat preserve_step; try (apply preserves_modify; intros s' Hs'; exact Hs').
Qed.

Lemma merge_app_keeps_widgets : forall W content,
  preserves (fun s => widgets s = W) (merge_app content).
Proof.
  intros W content. unfold merge_app.
  repeat preserve_step; try (apply preserves_modify; intros s' Hs'; exact Hs').
Qed.

Lemma merge_module_widgets : forall m content ws st,
  py_get content "widgets" (YMap []) = Some (YMap ws) ->
  NoDup (knorms ws) ->
  forall k, ydict_lookup k (widgets (snd (merge_module m content st))) =
    match ydict_lookup k ws with
    | Some d => Some (m, d)
    | None => ydict_lookup k (widgets st)
    end.
Proof.
  intros m content ws st Hget Hnd k. unfold merge_module. rewrite Hget.
  cbn [lift py_items]. rewrite !bind_ret_l.
  pose proof (merge_widgets_lookup m ws st Hnd) as Hw.
  destruct (for_each ws (merge_widget m) st) as [e st1] eqn:E.
  destruct Hw as (-> & _ & _ & _ & _ & Hw). rewrite <- Hw.
  erewrite bind_normal by reflexivity. cbv beta.
  erewrite bind_normal by exact E. f_equal.
  match goal with
  | |- widgets (snd (?c st1)) = widgets st1 =>
      assert (Hp : preserves (fun s => widgets s = widgets st1) c)
  end.
  { repeat preserve_step; first [apply merge_data_keeps_widgets | apply merge_app_keeps_widgets]. }
  exact (Hp st1 eq_refl).
Qed.
End AggFacts.

(** ** Strict traversal steps *)

Module LangFacts.
Import Lang.

(** One iteration of the loop on an unvisited name. *)
Lemma loop_unvisited : forall f l q v s,
  mem s v = false ->
  loop (S f) (mkFrame l (YStr s :: q) v) =
  match find_yaml_file (layouts_paths l) s with
  | None => (Return (Error (ModuleNotFound s)), mkFrame l q (s :: v))
  | Some (path, Malformed _) =>
      (Return (Error (YamlLoadFailed path)), mkFrame l q (s :: v))
  | Some (_, Document d) =>
      bind (process_content s (if is_none d then YMap [] else d)) (fun _ => loop f)
        (mkFrame l q (s :: v))
  end.
Proof.
  intros f l q v s Hm.
  cbn [loop bind get put set_queue set_visited queue visited self visit].
  rewrite Hm.
  destruct (find_yaml_file (layouts_paths l) s) as [[path [e | d]] |]; reflexivity.
Qed.

Lemma loop_visited : forall f l q v s,
  mem s v = true ->
  loop (S f) (mkFrame l (YStr s :: q) v) = loop f (mkFrame l q v).
Proof.
  intros f l q v s Hm.
  cbn [loop bind get put set_queue set_visited queue visited self visit].
  rewrite Hm. reflexivity.
Qed.

(** [process_content] never replaces a stored app block. *)
Definition keeps_app (A : yval) (fr : frame) : Prop :=
  app_config (self fr) = A /\ is_none A = false.

Lemma process_content_keeps_app : forall A cur content,
  preserves (keeps_app A) (process_content cur content).
Proof.
  intros A cur content. unfold process_content, merge_widget, merge_data,
    merge_app, extend_queue.
  repeat preserve_step;
    try (apply preserves_put; assumption);
    try (apply preserves_modify; intros ? ?; assumption).
  match goal with
  | H : keeps_app _ _, Hb : negb _ = false |- _ =>
      exfalso; destruct H as [H1 H2]; rewrite H1, H2 in Hb; discriminate
  end.
Qed.

(** With an app block stored, a module contributing another one does
    not complete. *)
Lemma process_content_second_app : forall cur kvs a fr,
  is_none (app_config (self fr)) = false ->
  py_get (YMap kvs) "app" YNull = Some a -> is_none a = false ->
  fst (process_content cur (YMap kvs) fr) <> Normal tt.
Proof.
  intros cur kvs a fr HA Hget Ha Hn.
  destruct (process_content cur (YMap kvs) fr) as [e fr'] eqn:E. simpl in Hn. subst e.
  unfold process_content in E.
  apply bind_normal_inv in E as (w & s1 & E1 & E). unfold lift in E1.
  destruct (py_get (YMap kvs) "widgets" (YMap [])); [| discriminate].
  injection E1 as -> <-.
  apply bind_normal_inv in E as (wi & s2 & E2 & E). unfold lift in E2.
  destruct (py_items w); [| discriminate]. injection E2 as -> <-.
  apply bind_normal_inv in E as (u & s3 & E3 & E).
  assert (K3 : keeps_app (app_config (self fr)) s3).
  { replace s3 with (snd (for_each wi (merge_widget cur) fr)) by (rewrite E3; reflexivity).
    apply preserves_for_each; [| split; [reflexivity | exact HA]].
    intros x. unfold merge_widget. repeat preserve_step;
      try (apply preserves_put; assumption). }
  apply bind_normal_inv in E as (d & s4 & E4 & E). unfold lift in E4.
  destruct (py_get (YMap kvs) "data" (YMap [])); [| discriminate].
  injection E4 as -> <-.
  apply bind_normal_inv in E as (di & s5 & E5 & E). unfold lift in E5.
  destruct (py_items d); [| discriminate]. injection E5 as -> <-.
  apply bind_normal_inv in E as (u' & s6 & E6 & E).
  assert (K6 : keeps_app (app_config (self fr)) s6).
  { replace s6 with (snd (for_each di merge_data s3)) by (rewrite E6; reflexivity).
    apply preserves_for_each; [| exact K3].
    intros x. unfold merge_data. repeat preserve_step;
      try (apply preserves_put; assumption). }
  apply bind_normal_inv in E as (a' & s7 & E7 & E). unfold lift in E7.
  rewrite Hget in E7. injection E7 as -> <-.
  apply bind_normal_inv in E as (u'' & s8 & E8 & _).
  unfold merge_app in E8. rewrite Ha in E8.
  destruct K6 as [K1 K2]. unfold bind, get in E8. rewrite K1, K2 in E8.
  discriminate.
Qed.

Lemma process_content_never_ok : forall cur content,
  never_returns Ok (process_content cur content).
Proof.
  intros cur content. unfold process_content, merge_widget, merge_data,
    merge_app, extend_queue, lift, early_return, ret, get, put, modify, raise.
  repeat never_step.
Qed.

Lemma loop_never_ok : forall f, never_returns Ok (loop f).
Proof.
  induction f as [| f IH]; simpl.
  - intros s. discriminate.
  - apply never_returns_bind; [intros ?; discriminate | intros fr].
    destruct (queue fr) as [| cur rest]; [intros ?; discriminate |].
    apply never_returns_bind; [intros ?; discriminate | intros _].
    unfold visit. destruct cur; try (intros ?; discriminate).
    apply never_returns_bind; [intros ?; discriminate | intros fr'].
    destruct (mem s (visited fr')); [exact IH |].
    apply never_returns_bind; [intros ?; discriminate | intros _].
    destruct (find_yaml_file (layouts_paths (self fr')) s) as [[path [e | v]] |];
      try (intros ?; discriminate).
    apply never_returns_bind; [apply process_content_never_ok | intros; exact IH].
Qed.

Definition final_check (fr : frame) : result :=
  match widget_definitions (self fr) with
  | [] => Error NoWidgets
  | _ => if is_none (app_config (self fr)) then Error NoApp else Ok
  end.

Lemma load_main_module_eq : forall l m,
  load_main_module l m =
  let '(e, fr) := loop (fuel_for (layouts_paths l) (seeds m)) (mkFrame l (seeds m) []) in
  (match e with
   | Normal _ => Returned (final_check fr)
   | Return r => Returned r
   | Raise x => Raised x
   | NoFuel => Diverged
   end, fr).
Proof.
  intros l m. unfold load_main_module, load_main_module_body.
  set (f := fuel_for _ _). clearbody f.
  unfold bind at 1, modify at 1. cbn [self].
  unfold bind at 1.
  destruct (loop f (mkFrame l (seeds m) [])) as [[[] | r | e |] fr]; try reflexivity.
  unfold final_check, bind, get.
  destruct (widget_definitions (self fr)); [reflexivity |].
  destruct (is_none (app_config (self fr))); reflexivity.
Qed.

(** [Ok] only comes from the final checks. *)
Lemma load_main_module_ok : forall l m,
  fst (load_main_module l m) = Returned Ok ->
  widget_definitions (self (snd (load_main_module l m))) <> [] /\
  is_none (app_config (self (snd (load_main_module l m)))) = false.
Proof.
  intros l m. rewrite load_main_module_eq.
  pose proof (loop_never_ok (fuel_for (layouts_paths l) (seeds m)) (mkFrame l (seeds m) [])) as Hn.
  destruct (loop _ _) as [[[] | r | e |] fr]; simpl in Hn |- *; try discriminate.
  - unfold final_check.
    destruct (widget_definitions (self fr)) as [| w ws] eqn:W; [discriminate |].
    destruct (is_none (app_config (self fr))) eqn:A; [discriminate |].
    intros _. split; [discriminate | reflexivity].
  - intros H. injection H as ->. contradiction.
Qed.

(** [l'] still holds everything [l] held: the dicts only grow at the
    end, and a stored app block stays. *)
Definition extends (l l' : lang) : Prop :=
  layouts_paths l' = layouts_paths l /\
  (exists w, widget_definitions l' = widget_definitions l ++ w) /\
  (exists d, data_definitions l' = data_definitions l ++ d) /\
  (is_none (app_config l) = false -> app_config l' = app_config l).

Lemma extends_refl : forall l, extends l l.
Proof.
  intros l. repeat split; try (exists []; rewrite app_nil_r); reflexivity.
Qed.

Lemma extends_trans : forall l1 l2 l3, extends l1 l2 -> extends l2 l3 -> extends l1 l3.
Proof.
  intros l1 l2 l3 (P1 & [w1 W1] & [d1 D1] & A1) (P2 & [w2 W2] & [d2 D2] & A2).
  repeat split.
  - congruence.
  - exists (w1 ++ w2). rewrite W2, W1, app_assoc. reflexivity.
  - exists (d1 ++ d2). rewrite D2, D1, app_assoc. reflexivity.
  - intros H. rewrite A2 by (rewrite A1 by exact H; exact H). exact (A1 H).
Qed.

Definition grows (L : lang) (fr : frame) : Prop := extends L (self fr).

Lemma extends_set_widgets_new : forall l k v,
  dict_mem k (widget_definitions l) = false ->
  extends l (set_widgets (dict_set k v (widget_definitions l)) l).
Proof.
  intros l k v H. unfold extends; simpl.
  split; [reflexivity |]. split.
  - eexists. apply dict_set_new. intros Hin. apply dict_mem_In in Hin. congruence.
  - split; [exists []; rewrite app_nil_r; reflexivity | reflexivity].
Qed.

Lemma extends_set_data_new : forall l k v,
  ydict_mem k (data_definitions l) = false ->
  extends l (set_data (ydict_set k v (data_definitions l)) l).
Proof.
  intros l k v H. unfold extends; simpl.
  split; [reflexivity |]. split; [exists []; rewrite app_nil_r; reflexivity |].
  split; [| reflexivity].
  eexists. apply ydict_set_new. intros Hin. apply ydict_mem_In in Hin. congruence.
Qed.

Lemma extends_set_app_none : forall l a,
  negb (is_none (app_config l)) = false -> extends l (set_app a l).
Proof.
  intros l a H. unfold extends; simpl.
  split; [reflexivity |]. split; [exists []; rewrite app_nil_r; reflexivity |].
  split; [exists []; rewrite app_nil_r; reflexivity |].
  intros H'. rewrite H' in H. discriminate.
Qed.

Lemma process_content_grows : forall L cur content,
  preserves (grows L) (process_content cur content).
Proof.
  intros L cur content. unfold process_content, merge_widget, merge_data,
    merge_app, extend_queue.
  repeat preserve_step;
    try (apply preserves_modify; intros ? ?; assumption);
    apply preserves_put; unfold grows in *; simpl;
    (eapply extends_trans; [eassumption |]);
    first [ apply extends_set_widgets_new | apply extends_set_data_new
          | apply extends_set_app_none ]; assumption.
Qed.

Lemma loop_grows : forall L f, preserves (grows L) (loop f).
Proof.
  intros L f. induction f as [| f IH]; simpl.
  - apply preserves_out_of_fuel.
  - apply preserves_bind_get. intros fr Hfr.
    destruct (queue fr) as [| cur rest]; [apply preserves_ret |].
    apply preserves_bind; [apply preserves_put; exact Hfr | intros _].
    unfold visit. destruct cur; try apply preserves_raise.
    apply preserves_bind_get. intros fr' Hfr'.
    destruct (mem s (visited fr')); [exact IH |].
    apply preserves_bind; [apply preserves_put; exact Hfr' | intros _].
    destruct (find_yaml_file (layouts_paths (self fr')) s) as [[path [e | v]] |];
      try apply preserves_early_return.
    apply preserves_bind; [apply process_content_grows | intros _; exact IH].
Qed.

Lemma load_main_module_grows : forall l m,
  extends l (self (snd (load_main_module l m))).
Proof.
  intros l m. rewrite load_main_module_eq.
  pose proof (loop_grows l (fuel_for (layouts_paths l) (seeds m))
                (mkFrame l (seeds m) []) (extends_refl l)) as H.
  destruct (loop _ _) as [e fr]. exact H.
Qed.


(** Widget keys of the form [m.w] with [m] among [V] and [w] dot-free. *)
Definition qualified_by (V : list string) (k : string) : Prop :=
  exists m w, In m V /\ no_dot w = true /\ k = (m ++ "." ++ w)%string.

Lemma merge_widget_qualified_eq : forall c w d fr,
  merge_widget c (w, d) fr =
  if dict_mem (c ++ "." ++ key_str w)%string (widget_definitions (self fr))
  then (Return (Error (DuplicateWidget (c ++ "." ++ key_str w)%string)), fr)
  else (Normal tt, set_self (set_widgets (dict_set (c ++ "." ++ key_str w)%string d
                               (widget_definitions (self fr))) (self fr)) fr).
Proof.
  intros. unfold merge_widget, bind, get, put, early_return. simpl.
  destruct (dict_mem _ _); reflexivity.
Qed.

Lemma widget_loop_no_dup : forall c V ws P fr e fr',
  ~ In c V ->
  NoDup (map key_str (map fst ws)) -> Forall (fun w => no_dot w = true) (map key_str (map fst ws)) ->
  (forall w, In w (map key_str (map fst ws)) -> ~ In w P) ->
  (forall w, In w P -> no_dot w = true) ->
  (forall k, In k (map fst (widget_definitions (self fr))) ->
     qualified_by V k \/ exists w, In w P /\ k = (c ++ "." ++ w)%string) ->
  for_each ws (merge_widget c) fr = (e, fr') ->
  (forall x, e <> Return (Error (DuplicateWidget x))) /\
  (e = Normal tt -> forall k, In k (map fst (widget_definitions (self fr'))) ->
     qualified_by V k \/ exists w, In w (P ++ map key_str (map fst ws)) /\ k = (c ++ "." ++ w)%string) /\
  visited fr' = visited fr /\ layouts_paths (self fr') = layouts_paths (self fr).
Proof.
  intros c V ws. induction ws as [| [w d] r IH]; intros P fr e fr' HcV Hnd Hdot Hdis HP Hk E.
  - simpl in E. injection E as <- <-. split; [intros x; discriminate |].
    split; [| split; reflexivity]. intros _ k Hin. rewrite app_nil_r. exact (Hk k Hin).
  - simpl in E. pose proof (merge_widget_qualified_eq c w d fr) as MW.
    simpl in Hnd, Hdot, Hdis. inversion Hnd as [| ? ? Hw Hnd']; subst.
    inversion Hdot as [| ? ? Hwd Hdot']; subst.
    destruct (dict_mem (c ++ "." ++ key_str w)%string (widget_definitions (self fr))) eqn:M;
      rewrite (bind_split _ _ _ _ _ MW) in E.
    + exfalso. apply dict_mem_In in M. destruct (Hk _ M) as [(m & w0 & Hm & Hw0 & Eq) | (w0 & Hw0 & Eq)].
      * destruct (qualified_name_inj m c w0 (key_str w) Hw0 Hwd (eq_sym Eq)) as [-> _]. contradiction.
      * destruct (qualified_name_inj c c w0 (key_str w) (HP w0 Hw0) Hwd (eq_sym Eq)) as [_ ->].
        exact (Hdis (key_str w) (or_introl eq_refl) Hw0).
    + edestruct (IH (P ++ [key_str w])) as (H1 & H2 & H3 & H4); [exact HcV | exact Hnd' | exact Hdot' | | | | exact E |].
      * intros w' Hin Hin'. apply in_app_iff in Hin' as [Hin' | [<- | []]].
        -- exact (Hdis w' (or_intror Hin) Hin').
        -- contradiction.
      * intros w' Hin'. apply in_app_iff in Hin' as [Hin' | [<- | []]]; [exact (HP w' Hin') | exact Hwd].
      * intros k Hin. cbn [self set_self set_widgets widget_definitions] in Hin. rewrite dict_set_keys, M in Hin.
        apply in_app_iff in Hin as [Hin | [<- | []]].
        -- destruct (Hk k Hin) as [Hq | (w0 & Hw0 & Eq)]; [left; exact Hq |].
           right. exists w0. split; [apply in_app_iff; left; exact Hw0 | exact Eq].
        -- right. exists (key_str w). split; [apply in_app_iff; right; left; reflexivity | reflexivity].
      * split; [exact H1 |]. split; [| split; assumption].
        intros He k Hin. rewrite <- app_assoc in H2. exact (H2 He k Hin).
Qed.

Lemma qualified_by_cons : forall c V k, qualified_by V k -> qualified_by (c :: V) k.
Proof.
  intros c V k (m & w & Hm & Hw & ->). exists m, w. split; [right; exact Hm | split; auto].
Qed.

Lemma bind_lift_some {S R A B} : forall e (a : A) (k : A -> ST S R B) s,
  bind (lift e (Some a)) k s = k a s.
Proof. reflexivity. Qed.

Lemma bind_lift_none {S R A B} : forall e (k : A -> ST S R B) s,
  bind (lift e None) k s = (Raise e, s).
Proof. reflexivity. Qed.

Lemma process_content_keeps_visited : forall V cur content,
  preserves (fun fr => visited fr = V) (process_content cur content).
Proof.
  intros V cur content. unfold process_content, merge_widget, merge_data,
    merge_app, extend_queue.
  repeat preserve_step;
    try (apply preserves_put; simpl; assumption);
    try (apply preserves_modify; intros ? ?; simpl; assumption).
Qed.

(** A module processed for the first time adds only keys [cur.w] with a
    dot-free [w], and none of them is already stored. *)
Lemma process_content_no_dup : forall c V content fr e fr',
  ~ In c V -> widget_names_ok content = true ->
  (forall k, In k (map fst (widget_definitions (self fr))) -> qualified_by V k) ->
  process_content c content fr = (e, fr') ->
  (forall x, e <> Return (Error (DuplicateWidget x))) /\
  (e = Normal tt -> forall k, In k (map fst (widget_definitions (self fr'))) ->
     qualified_by (c :: V) k).
Proof.
  intros c V content fr e fr' HcV Hok Hk E.
  unfold process_content in E. unfold widget_names_ok in Hok.
  destruct (py_get content "widgets" (YMap [])) as [w |] eqn:G;
    [| rewrite bind_lift_none in E; injection E as <- <-;
       split; [intros x; discriminate | discriminate]].
  rewrite bind_lift_some in E. cbv beta in E.
  destruct (py_items w) as [wi |] eqn:I;
    [| rewrite bind_lift_none in E; injection E as <- <-;
       split; [intros x; discriminate | discriminate]].
  rewrite bind_lift_some in E. cbv beta in E.
  destruct w; try discriminate. injection I as ->.
  apply andb_prop in Hok as [Hu Hd].
  apply keys_unique_NoDup in Hu. rewrite forallb_forall in Hd.
  destruct (for_each wi (merge_widget c) fr) as [e1 fr1] eqn:W.
  rewrite (bind_split _ _ _ _ _ W) in E.
  edestruct (widget_loop_no_dup c V wi [] fr e1 fr1) as (H1 & H2 & _ & _);
    [exact HcV | exact Hu | apply Forall_forall; exact Hd
    | intros ? ? [] | intros ? [] | intros k Hin; left; exact (Hk k Hin) | exact W |].
  destruct e1 as [[] | r | x |];
    try (injection E as <- <-; split; [intros ?; discriminate | discriminate]).
  - cbv beta in E.
    match type of E with
    | ?r fr1 = _ =>
        assert (NR : forall x, never_returns (Error (DuplicateWidget x)) r);
        [| assert (PR : preserves (fun s =>
                     widget_definitions (self s) = widget_definitions (self fr1)) r)]
    end.
    + intros x. unfold merge_data, merge_app, extend_queue, lift, early_return,
        ret, get, put, modify, raise.
      repeat never_step.
    + unfold merge_data, merge_app, extend_queue.
      repeat preserve_step;
        try (apply preserves_put; simpl; assumption);
        try (apply preserves_modify; intros ? ?; simpl; assumption).
    + split.
      * intros x Hx. apply (NR x fr1). rewrite E. exact Hx.
      * intros _ k Hin. specialize (PR fr1 eq_refl). rewrite E in PR. simpl in PR.
        rewrite PR in Hin.
        destruct (H2 eq_refl k Hin) as [Hq | (w0 & Hw0 & ->)];
          [apply qualified_by_cons; exact Hq |].
        exists c, w0. split; [left; reflexivity | split; [apply Hd; exact Hw0 | reflexivity]].
  - injection E as <- <-. split; [exact H1 | discriminate].
Qed.

(** The loop never stops on a duplicate widget key while every stored key
    is qualified by a visited name. *)
Lemma loop_no_dup : forall f fr e fr',
  paths_ok (layouts_paths (self fr)) = true ->
  (forall k, In k (map fst (widget_definitions (self fr))) -> qualified_by (visited fr) k) ->
  loop f fr = (e, fr') -> forall x, e <> Return (Error (DuplicateWidget x)).
Proof.
  induction f as [| f IH]; intros [l q v] e fr' Hp Hk E x.
  - simpl in E. injection E as <- _. discriminate.
  - simpl in Hp, Hk. destruct q as [| cur rest].
    + cbn in E. injection E as <- _. discriminate.
    + destruct cur as [| | | s | |];
        try (cbn in E; injection E as <- _; discriminate).
      destruct (mem s v) eqn:M.
      * rewrite loop_visited in E by exact M. exact (IH (mkFrame l rest v) _ _ Hp Hk E x).
      * rewrite loop_unvisited in E by exact M.
        destruct (find_yaml_file (layouts_paths l) s) as [[path [err | d]] |] eqn:F;
          try (injection E as <- _; discriminate).
        destruct (process_content s (if is_none d then YMap [] else d) (mkFrame l rest (s :: v)))
          as [e1 fr1] eqn:P.
        rewrite (bind_split _ _ _ _ _ P) in E.
        assert (HsV : ~ In s v) by (intros Hin; apply mem_In in Hin; congruence).
        destruct (process_content_no_dup s v _ (mkFrame l rest (s :: v)) _ _ HsV (paths_ok_find _ _ _ _ Hp F) Hk P)
          as [H1 H2].
        destruct e1 as [[] | r | y |]; try (injection E as <- _; first [discriminate | apply H1]).
        pose proof (process_content_keeps_visited (s :: v) s (if is_none d then YMap [] else d)
                      (mkFrame l rest (s :: v)) eq_refl) as HV.
        pose proof (process_content_grows l s (if is_none d then YMap [] else d)
                      (mkFrame l rest (s :: v)) (extends_refl l)) as HG.
        rewrite P in HV, HG. simpl in HV, HG. destruct HG as [HL _].
        apply (IH fr1 e fr'); [rewrite HL; exact Hp | rewrite HV; exact (H2 eq_refl) | exact E].
Qed.
(** A widget loop ends normally or on a duplicate widget key; a data loop
    normally or on a duplicate data key. *)
Lemma widget_loop_outcome : forall cur ws fr,
  fst (for_each ws (merge_widget cur) fr) = Normal tt \/
  exists x, fst (for_each ws (merge_widget cur) fr) = Return (Error (DuplicateWidget x)).
Proof.
  intros cur ws. induction ws as [| [w d] r IH]; intros fr; [left; reflexivity |].
  cbn [for_each]. pose proof (merge_widget_qualified_eq cur w d fr) as MW.
  destruct (dict_mem _ _); rewrite (bind_split _ _ _ _ _ MW);
    [right; eexists; reflexivity | apply IH].
Qed.

Lemma data_loop_outcome : forall ds fr,
  fst (for_each ds merge_data fr) = Normal tt \/
  exists x, fst (for_each ds merge_data fr) = Return (Error (DuplicateData x)).
Proof.
  intros ds. induction ds as [| [k d] r IH]; intros fr; [left; reflexivity |].
  cbn [for_each].
  assert (MD : merge_data (k, d) fr =
    if ydict_mem k (data_definitions (self fr))
    then (Return (Error (DuplicateData k)), fr)
    else (Normal tt, set_self (set_data (ydict_set k d (data_definitions (self fr))) (self fr)) fr)).
  { unfold merge_data, bind, get, put, early_return. simpl.
    destruct (ydict_mem k _); reflexivity. }
  destruct (ydict_mem k _); rewrite (bind_split _ _ _ _ _ MD);
    [right; eexists; reflexivity | apply IH].
Qed.

Lemma keeps_app_widget_loop : forall A cur ws,
  preserves (keeps_app A) (for_each ws (merge_widget cur)).
Proof.
  intros A cur ws. apply preserves_for_each.
  intros x. unfold merge_widget. repeat preserve_step;
    try (apply preserves_put; assumption).
Qed.

Lemma keeps_app_data_loop : forall A ds,
  preserves (keeps_app A) (for_each ds merge_data).
Proof.
  intros A ds. apply preserves_for_each.
  intros x. unfold merge_data. repeat preserve_step;
    try (apply preserves_put; assumption).
Qed.

(** With an app block stored, a module contributing another one stops on
    the duplicate-app error unless its own widget or data step stops
    first (on a duplicate key, or with an exception on a non-mapping
    section). *)
Lemma process_content_app_cases : forall cur kvs a fr,
  is_none (app_config (self fr)) = false ->
  py_get (YMap kvs) "app" YNull = Some a -> is_none a = false ->
  (forall wi, py_items (match ydict_lookup (KStr "widgets") kvs with Some v => v | None => YMap [] end) = Some wi ->
   forall di, py_items (match ydict_lookup (KStr "data") kvs with Some v => v | None => YMap [] end) = Some di ->
   fst (for_each wi (merge_widget cur) fr) = Normal tt ->
   fst (for_each di merge_data (snd (for_each wi (merge_widget cur) fr))) = Normal tt ->
   fst (process_content cur (YMap kvs) fr) = Return (Error (MultipleApp cur))) /\
  (fst (process_content cur (YMap kvs) fr) = Return (Error (MultipleApp cur)) \/
   (exists x, fst (process_content cur (YMap kvs) fr) = Return (Error (DuplicateWidget x))) \/
   (exists x, fst (process_content cur (YMap kvs) fr) = Return (Error (DuplicateData x))) \/
   fst (process_content cur (YMap kvs) fr) = Raise AttributeError).
Proof.
  intros cur kvs a fr HA Hget Ha.
  assert (Gen : forall wi di,
    py_items (match ydict_lookup (KStr "widgets") kvs with Some v => v | None => YMap [] end) = Some wi ->
    py_items (match ydict_lookup (KStr "data") kvs with Some v => v | None => YMap [] end) = Some di ->
    fst (for_each wi (merge_widget cur) fr) = Normal tt ->
    fst (for_each di merge_data (snd (for_each wi (merge_widget cur) fr))) = Normal tt ->
    fst (process_content cur (YMap kvs) fr) = Return (Error (MultipleApp cur))).
  { intros wi di Iw Id Nw Nd. unfold process_content.
    cbn [py_get]. rewrite !bind_lift_some. rewrite Iw, bind_lift_some.
    destruct (for_each wi (merge_widget cur) fr) as [e3 s3] eqn:E3. simpl in Nw, Nd. subst e3.
    rewrite (bind_split _ _ _ _ _ E3).
    pose proof (keeps_app_widget_loop _ cur wi fr (conj eq_refl HA)) as K3.
    rewrite E3 in K3. simpl in K3.
    rewrite !bind_lift_some. rewrite Id, bind_lift_some.
    destruct (for_each di merge_data s3) as [e6 s6] eqn:E6. simpl in Nd. subst e6.
    rewrite (bind_split _ _ _ _ _ E6).
    pose proof (keeps_app_data_loop _ di s3 K3) as K6.
    rewrite E6 in K6. simpl in K6.
    cbn [py_get] in Hget. rewrite Hget, bind_lift_some.
    unfold bind at 1. unfold merge_app. rewrite Ha.
    unfold bind at 1, get at 1. destruct K6 as [K1 K2]. rewrite K1, K2. reflexivity. }
  split; [intros wi Iw di Id; exact (Gen wi di Iw Id) |].
  destruct (py_items (match ydict_lookup (KStr "widgets") kvs with Some v => v | None => YMap [] end))
    as [wi |] eqn:Iw;
    [| right; right; right; unfold process_content; cbn [py_get];
       rewrite bind_lift_some, Iw, bind_lift_none; reflexivity].
  destruct (widget_loop_outcome cur wi fr) as [Nw | [x Dw]].
  2:{ right; left. exists x. unfold process_content; cbn [py_get].
      rewrite bind_lift_some, Iw, bind_lift_some.
      destruct (for_each wi (merge_widget cur) fr) as [e3 s3] eqn:E3. simpl in Dw. subst e3.
      rewrite (bind_split _ _ _ _ _ E3). reflexivity. }
  destruct (py_items (match ydict_lookup (KStr "data") kvs with Some v => v | None => YMap [] end))
    as [di |] eqn:Id.
  2:{ right; right; right. unfold process_content; cbn [py_get].
      rewrite bind_lift_some, Iw, bind_lift_some.
      destruct (for_each wi (merge_widget cur) fr) as [e3 s3] eqn:E3. simpl in Nw. subst e3.
      rewrite (bind_split _ _ _ _ _ E3). rewrite bind_lift_some, Id, bind_lift_none. reflexivity. }
  destruct (data_loop_outcome di (snd (for_each wi (merge_widget cur) fr))) as [Nd | [x Dd]].
  - left. exact (Gen wi di eq_refl eq_refl Nw Nd).
  - right; right; left. exists x. unfold process_content; cbn [py_get].
    rewrite bind_lift_some, Iw, bind_lift_some.
    destruct (for_each wi (merge_widget cur) fr) as [e3 s3] eqn:E3. simpl in Nw, Dd. subst e3.
    rewrite (bind_split _ _ _ _ _ E3). rewrite bind_lift_some, Id, bind_lift_some.
    destruct (for_each di merge_data s3) as [e6 s6] eqn:E6. simpl in Dd. subst e6.
    rewrite (bind_split _ _ _ _ _ E6). reflexivity.
Qed.
End LangFacts.

(** ** Termination and reach of the strict traversal *)

Module LangTraversal.
Import Lang.

Lemma process_content_nofuel : forall c content, never_nofuel (process_content c content).
Proof.
  intros c content. unfold process_content, merge_widget, merge_data,
    merge_app, extend_queue, lift, early_return, ret, get, put, modify, raise.
  repeat nofuel_step.
Qed.

(** The queue, the visited names and the search paths of a frame. *)
Definition frame_meta (Q : list yval) (V : list string) (P : list dir) (fr : frame) : Prop :=
  queue fr = Q /\ visited fr = V /\ layouts_paths (self fr) = P.

Lemma merge_widget_meta : forall Q V P c kv, preserves (frame_meta Q V P) (merge_widget c kv).
Proof.
  intros. unfold merge_widget. repeat preserve_step.
  apply preserves_put. unfold frame_meta in *. simpl. assumption.
Qed.

Lemma merge_data_meta : forall Q V P kv, preserves (frame_meta Q V P) (merge_data kv).
Proof.
  intros. unfold merge_data. repeat preserve_step.
  apply preserves_put. unfold frame_meta in *. simpl. assumption.
Qed.

Lemma merge_app_meta : forall Q V P c a, preserves (frame_meta Q V P) (merge_app c a).
Proof.
  intros. unfold merge_app. repeat preserve_step.
  apply preserves_put. unfold frame_meta in *. simpl. assumption.
Qed.

(** A module processed without error appends [pushed v] to the queue and
    changes neither the visited names nor the search paths. *)
Lemma process_content_queue : forall c v fr fr',
  process_content c (if is_none v then YMap [] else v) fr = (Normal tt, fr') ->
  queue fr' = queue fr ++ pushed v /\ visited fr' = visited fr /\
  layouts_paths (self fr') = layouts_paths (self fr).
Proof.
  intros c v fr fr'. unfold pushed. generalize (if is_none v then YMap [] else v) as content.
  intros content E. unfold process_content in E.
  assert (I0 : frame_meta (queue fr) (visited fr) (layouts_paths (self fr)) fr)
    by (split; [| split]; reflexivity).
  apply bind_normal_inv in E as (w & s1 & E1 & E). unfold lift in E1.
  destruct (py_get content "widgets" (YMap [])); [injection E1 as -> <- | discriminate].
  apply bind_normal_inv in E as (wi & s2 & E2 & E). unfold lift in E2.
  destruct (py_items w); [injection E2 as -> <- | discriminate].
  apply bind_normal_inv in E as (u1 & s3 & E3 & E).
  pose proof (preserves_out _ _ _ _ _
                (preserves_for_each _ wi _ (merge_widget_meta _ _ _ c)) E3 I0) as I3.
  apply bind_normal_inv in E as (d & s4 & E4 & E). unfold lift in E4.
  destruct (py_get content "data" (YMap [])); [injection E4 as -> <- | discriminate].
  apply bind_normal_inv in E as (di & s5 & E5 & E). unfold lift in E5.
  destruct (py_items d); [injection E5 as -> <- | discriminate].
  apply bind_normal_inv in E as (u2 & s6 & E6 & E).
  pose proof (preserves_out _ _ _ _ _
                (preserves_for_each _ di _ (merge_data_meta _ _ _)) E6 I3) as I6.
  apply bind_normal_inv in E as (a & s7 & E7 & E). unfold lift in E7.
  destruct (py_get content "app" YNull); [injection E7 as -> <- | discriminate].
  apply bind_normal_inv in E as (u3 & s8 & E8 & E).
  pose proof (preserves_out _ _ _ _ _ (merge_app_meta _ _ _ c a) E8 I6) as (Q8 & V8 & P8).
  apply bind_normal_inv in E as (im & s9 & E9 & E). unfold lift in E9.
  destruct (py_get content "import" (YSeq [])); [injection E9 as -> <- | discriminate].
  unfold extend_queue in E. destruct (truthy im).
  - apply bind_normal_inv in E as (items & s10 & E10 & E). unfold lift in E10.
    destruct (py_iter im); [injection E10 as -> <- | discriminate].
    unfold modify in E. injection E as <-. simpl. rewrite Q8, V8, P8.
    split; [| split]; reflexivity.
  - unfold ret in E. injection E as <-. rewrite Q8, V8, P8, app_nil_r.
    split; [| split]; reflexivity.
Qed.

(** Each iteration either drops a queue entry or visits a new name [s],
    which swaps the [cost] of [s] for its pushed entries: the queue
    length plus the cost of the unvisited entries bounds the iterations. *)
Lemma loop_nofuel : forall P Sd f fr,
  layouts_paths (self fr) = P -> incl (queue fr) (all_entries P Sd) ->
  length (queue fr) + pending (cost P) (visited fr) (all_entries P Sd) < f ->
  fst (loop f fr) <> NoFuel.
Proof.
  intros P Sd f. induction f as [| f IH]; intros [l q v] HP Hq Hf; [simpl in Hf; lia |].
  simpl in HP, Hq, Hf. destruct q as [| cur rest].
  - cbn. discriminate.
  - destruct cur as [| | | s | |]; try (cbn; discriminate).
    destruct (mem s v) eqn:M.
    + rewrite LangFacts.loop_visited by exact M.
      apply IH; simpl; [exact HP | intros x Hx; apply Hq; right; exact Hx | cbn [length] in Hf; lia].
    + rewrite LangFacts.loop_unvisited by exact M.
      destruct (find_yaml_file (layouts_paths l) s) as [[path [err | d]] |] eqn:F;
        try (simpl; discriminate).
      destruct (process_content s (if is_none d then YMap [] else d) (mkFrame l rest (s :: v)))
        as [e1 fr1] eqn:PC.
      rewrite (bind_split _ _ _ _ _ PC).
      destruct e1 as [[] | r | x |]; try (simpl; discriminate).
      * destruct (process_content_queue _ _ _ _ PC) as (Q1 & V1 & P1). simpl in Q1, V1, P1.
        rewrite HP in F.
        apply IH; [rewrite P1; exact HP | rewrite Q1 |].
        -- intros x Hx. apply in_app_iff in Hx as [Hx | Hx]; [apply Hq; right; exact Hx |].
           unfold all_entries. apply in_app_iff. right.
           exact (in_yaml_entries (fun f => match f with Document v => pushed v | Malformed _ => [] end)
                    P s path (Document d) x F Hx).
        -- rewrite Q1, V1, length_app.
           pose proof (pending_visit (cost P) v s (all_entries P Sd) (Hq _ (or_introl eq_refl)) M) as Hv.
           unfold cost at 2 in Hv. rewrite F in Hv. simpl length in Hf. lia.
      * exfalso. apply (process_content_nofuel s (if is_none d then YMap [] else d) (mkFrame l rest (s :: v))).
        rewrite PC. reflexivity.
Qed.

Lemma loop_nodup : forall f, preserves (fun fr => NoDup (visited fr)) (loop f).
Proof.
  intros f. induction f as [| f IH]; simpl.
  - apply preserves_out_of_fuel.
  - apply preserves_bind_get. intros fr Hfr.
    destruct (queue fr) as [| cur rest]; [apply preserves_ret |].
    apply preserves_bind; [apply preserves_put; exact Hfr | intros _].
    unfold visit. destruct cur; try apply preserves_raise.
    apply preserves_bind_get. intros fr' Hfr'.
    destruct (mem s (visited fr')) eqn:M; [exact IH |].
    apply preserves_bind;
      [apply preserves_put; simpl; constructor;
       [intros Hin; apply mem_In in Hin; congruence | exact Hfr'] | intros _].
    destruct (find_yaml_file (layouts_paths (self fr')) s) as [[path [e | v]] |];
      try apply preserves_early_return.
    apply preserves_bind; [| intros _; exact IH].
    intros fr1 H1. pose proof (LangFacts.process_content_keeps_visited (visited fr1) s
                                (if is_none v then YMap [] else v) fr1 eq_refl) as HV.
    simpl in HV |- *. rewrite HV. exact H1.
Qed.

(** Every visited name and queued name is reachable; the pushed entries
    of a visited module, and the seeds, are visited or still queued. *)
Definition trav_inv (P : list dir) (Sd : list yval) (fr : frame) : Prop :=
  (forall s, In s (visited fr) -> lang_reach P Sd s) /\
  (forall t, In (YStr t) (queue fr) -> lang_reach P Sd t) /\
  (forall s p v t, In s (visited fr) -> find_yaml_file P s = Some (p, Document v) ->
     In (YStr t) (pushed v) -> In t (visited fr) \/ In (YStr t) (queue fr)) /\
  (forall t, In (YStr t) Sd -> In t (visited fr) \/ In (YStr t) (queue fr)).

Lemma trav_inv_skip : forall P Sd l s rest v,
  In s v -> trav_inv P Sd (mkFrame l (YStr s :: rest) v) -> trav_inv P Sd (mkFrame l rest v).
Proof.
  intros P Sd l s rest v Hs (H1 & H2 & H3 & H4); simpl in *.
  split; [exact H1 | split; [intros t Ht; apply H2; right; exact Ht | split]].
  - intros s' p v' t Hs' F Ht.
    destruct (H3 s' p v' t Hs' F Ht) as [Hv | [Heq | Hq]];
      [left; exact Hv | injection Heq as ->; left; exact Hs | right; exact Hq].
  - intros t Ht.
    destruct (H4 t Ht) as [Hv | [Heq | Hq]];
      [left; exact Hv | injection Heq as ->; left; exact Hs | right; exact Hq].
Qed.

Lemma trav_inv_visit : forall P Sd l s rest v p d fr1,
  find_yaml_file P s = Some (p, Document d) ->
  trav_inv P Sd (mkFrame l (YStr s :: rest) v) ->
  queue fr1 = rest ++ pushed d -> visited fr1 = s :: v -> trav_inv P Sd fr1.
Proof.
  intros P Sd l s rest v p d fr1 F (H1 & H2 & H3 & H4) Q1 V1.
  unfold trav_inv. rewrite Q1, V1. simpl in H1, H2, H3, H4.
  assert (Rs : lang_reach P Sd s) by (apply H2; left; reflexivity).
  split; [| split; [| split]].
  - intros s' [<- | Hs']; [exact Rs | exact (H1 s' Hs')].
  - intros t Ht. apply in_app_iff in Ht as [Ht | Ht];
      [apply H2; right; exact Ht | exact (lang_reach_import P Sd s p d t Rs F Ht)].
  - intros s' p' v' t [<- | Hs'] F' Ht.
    + rewrite F in F'. injection F' as _ <-. right. apply in_app_iff. right. exact Ht.
    + destruct (H3 s' p' v' t Hs' F' Ht) as [Hv | [Heq | Hq]].
      * left. right. exact Hv.
      * injection Heq as ->. left. left. reflexivity.
      * right. apply in_app_iff. left. exact Hq.
  - intros t Ht. destruct (H4 t Ht) as [Hv | [Heq | Hq]].
    + left. right. exact Hv.
    + injection Heq as ->. left. left. reflexivity.
    + right. apply in_app_iff. left. exact Hq.
Qed.

Lemma loop_complete : forall P Sd f fr fr',
  layouts_paths (self fr) = P -> trav_inv P Sd fr -> loop f fr = (Normal tt, fr') ->
  trav_inv P Sd fr' /\ queue fr' = [].
Proof.
  intros P Sd f. induction f as [| f IH]; intros [l q v] fr' HP HI E;
    [simpl in E; discriminate E |].
  simpl in HP. destruct q as [| cur rest].
  - cbn in E. inversion E; subst. split; [exact HI | reflexivity].
  - destruct cur as [| | | s | |]; try (cbn in E; discriminate E).
    destruct (mem s v) eqn:M.
    + rewrite LangFacts.loop_visited in E by exact M.
      exact (IH (mkFrame l rest v) _ HP (trav_inv_skip P Sd l s rest v (proj1 (mem_In s v) M) HI) E).
    + rewrite LangFacts.loop_unvisited in E by exact M.
      destruct (find_yaml_file (layouts_paths l) s) as [[path [err | d]] |] eqn:F;
        try discriminate E.
      destruct (process_content s (if is_none d then YMap [] else d) (mkFrame l rest (s :: v)))
        as [e1 fr1] eqn:PC.
      rewrite (bind_split _ _ _ _ _ PC) in E.
      destruct e1 as [[] | r | x |]; try discriminate E.
      destruct (process_content_queue _ _ _ _ PC) as (Q1 & V1 & P1). simpl in Q1, V1, P1.
      apply (IH fr1 fr'); [rewrite P1; exact HP | | exact E].
      apply (trav_inv_visit P Sd l s rest v path d fr1);
        [rewrite <- HP; exact F | exact HI | exact Q1 | exact V1].
Qed.

Lemma trav_inv_final : forall P Sd fr,
  trav_inv P Sd fr -> queue fr = [] ->
  forall s, In s (visited fr) <-> lang_reach P Sd s.
Proof.
  intros P Sd fr (H1 & H2 & H3 & H4) Hq s. split; [apply H1 |].
  intros R. induction R as [s Hs | s p v t R IHR F Ht].
  - destruct (H4 s Hs) as [Hv | Hq']; [exact Hv | rewrite Hq in Hq'; destruct Hq'].
  - destruct (H3 s p v t IHR F Ht) as [Hv | Hq']; [exact Hv | rewrite Hq in Hq'; destruct Hq'].
Qed.

(** The results that only the final checks produce: the loop ran to the end. *)
Definition final_result (r : result) : Prop :=
  r = Ok \/ r = Error NoWidgets \/ r = Error NoApp.

Lemma process_content_never_final : forall r cur content,
  final_result r -> never_returns r (process_content cur content).
Proof.
  intros r cur content Hr. destruct Hr as [-> | [-> | ->]];
    unfold process_content, merge_widget, merge_data, merge_app, extend_queue, lift,
      early_return, ret, get, put, modify, raise;
    repeat never_step.
Qed.

Lemma loop_never_final : forall r f, final_result r -> never_returns r (loop f).
Proof.
  intros r f Hr. induction f as [| f IH]; simpl.
  - intros s. discriminate.
  - apply never_returns_bind; [intros ?; discriminate | intros fr].
    destruct (queue fr) as [| cur rest]; [intros s Hs; discriminate Hs |].
    apply never_returns_bind; [intros ?; discriminate | intros _].
    unfold visit. destruct cur; try (intros ?; discriminate).
    apply never_returns_bind; [intros ?; discriminate | intros fr'].
    destruct (mem s (visited fr')); [exact IH |].
    apply never_returns_bind; [intros ?; discriminate | intros _].
    destruct (find_yaml_file (layouts_paths (self fr')) s) as [[path [e | v]] |];
      try (intros s' Hs'; simpl in Hs'; injection Hs' as <-;
           destruct Hr as [H | [H | H]]; discriminate H).
    apply never_returns_bind; [apply process_content_never_final; exact Hr | intros; exact IH].
Qed.

(** [Lang.load_main_module]: it terminates, visits no name twice, and when
    the loop runs to the end the visited names are the reachable ones. *)
Lemma load_main_module_traversal : forall l m,
  fst (load_main_module l m) <> Diverged /\
  NoDup (visited (snd (load_main_module l m))) /\
  (forall r, fst (load_main_module l m) = Returned r -> final_result r ->
     forall s, In s (visited (snd (load_main_module l m))) <->
               lang_reach (layouts_paths l) (seeds m) s).
Proof.
  intros l m. rewrite LangFacts.load_main_module_eq.
  set (P := layouts_paths l). set (Sd := seeds m).
  assert (NF : fst (loop (fuel_for P Sd) (mkFrame l Sd [])) <> NoFuel).
  { pose proof (pending_le (cost P) [] (all_entries P Sd)).
    refine (loop_nofuel P Sd (fuel_for P Sd) (mkFrame l Sd []) eq_refl _ _); cbn [queue visited];
      [intros x Hx; unfold all_entries; apply in_app_iff; left; exact Hx
      | unfold fuel_for; lia]. }
  pose proof (loop_nodup (fuel_for P Sd) (mkFrame l Sd []) (NoDup_nil _)) as ND.
  pose proof (loop_never_final) as NR.
  assert (HI : trav_inv P Sd (mkFrame l Sd [])).
  { split; [intros s [] | split; [intros t Ht; apply lang_reach_seed; exact Ht | split]].
    - intros s p v t [].
    - intros t Ht. right. exact Ht. }
  destruct (loop (fuel_for P Sd) (mkFrame l Sd [])) as [e fr] eqn:L. simpl in NF, ND.
  destruct e as [[] | r | x |]; simpl.
  - split; [discriminate | split; [exact ND |]].
    intros r _ _. destruct (loop_complete P Sd _ (mkFrame l Sd []) fr eq_refl HI L) as [HI' Hq].
    exact (trav_inv_final P Sd fr HI' Hq).
  - split; [discriminate | split; [exact ND |]].
    intros r' Hr' Hf. injection Hr' as <-.
    exfalso. apply (NR r (fuel_for P Sd) Hf (mkFrame l Sd [])). rewrite L. reflexivity.
  - split; [discriminate | split; [exact ND | intros r H; discriminate H]].
  - exfalso. apply NF. reflexivity.
Qed.
End LangTraversal.

Module AggSteps.
Import YAMLAggregator.

(** [process_module] on an unvisited name whose file is malformed. *)
Lemma process_module_malformed : forall f st s path e,
  mem s (visited_modules st) = false ->
  find_yaml_file (search_paths st) s = Some (path, Malformed e) ->
  process_module (S f) (YStr s) st =
  (Normal tt, emit_to (ErrorLoading path) (emit_to (Processing path)
                (set_visited (s :: visited_modules st) st))).
Proof.
  intros f st s path e Hm Hf.
  cbn [process_module bind get put set_visited search_paths visited_modules].
  rewrite Hm, Hf. reflexivity.
Qed.
End AggSteps.


(** ** The emitted document *)


Lemma aggregate_body_eq : forall f m a,
  YAMLAggregator.aggregate_body f m a =
  let '(e, st) := YAMLAggregator.process_module f (YStr m)
                    (YAMLAggregator.emit_to (YAMLAggregator.Aggregating m) a) in
  (match e with
   | Normal _ => Normal (YAMLAggregator.build_result st)
   | Return r => Return r
   | Raise x => Raise x
   | NoFuel => NoFuel
   end, st).
Proof.
  intros f m a. unfold YAMLAggregator.aggregate_body, YAMLAggregator.print, modify.
  unfold bind at 1. simpl. unfold bind at 1.
  destruct (YAMLAggregator.process_module f (YStr m) _) as [[[] | [] | e |] st]; reflexivity.
Qed.

Lemma aggregate_returns_build_result : forall a m v,
  fst (YAMLAggregator.aggregate a m) = Normal v ->
  v = YAMLAggregator.build_result (snd (YAMLAggregator.aggregate a m)).
Proof.
  intros a m v. unfold YAMLAggregator.aggregate.
  rewrite aggregate_body_eq.
  destruct (YAMLAggregator.process_module _ (YStr m) _) as [[[] | [] | e |] st];
    simpl; try discriminate.
  intros H. injection H as <-. reflexivity.
Qed.

(** ** Termination and reach of the permissive traversal *)

Module AggTraversal.
Import YAMLAggregator.

(** The content [process_module] works on, and the state after it has
    printed and loaded the file. *)
Definition loaded (fl : file) : yval :=
  match fl with Malformed _ => YMap [] | Document v => if truthy v then v else YMap [] end.

Definition after_load (path : string) (fl : file) (st : aggregator) : aggregator :=
  match fl with
  | Malformed _ => emit_to (ErrorLoading path) (emit_to (Processing path) st)
  | Document _ => emit_to (Processing path) st
  end.

(** Lines 72-74 as [process_module] runs them. *)
Definition read_imports (c : yval) : AM (list yval) :=
  match py_get c "import" (YSeq []) with
  | Some _ => lift TypeError (import_list c)
  | None => raise AttributeError
  end.

Lemma process_module_visited : forall f m st,
  mem m (visited_modules st) = true ->
  process_module (S f) (YStr m) st = (Normal tt, st).
Proof.
  intros f m st Hm. cbn [process_module bind get]. rewrite Hm. reflexivity.
Qed.

Lemma process_module_not_found : forall f m st,
  mem m (visited_modules st) = false ->
  find_yaml_file (search_paths st) m = None ->
  process_module (S f) (YStr m) st =
  (Normal tt, emit_to (WarnNotFound m) (set_visited (m :: visited_modules st) st)).
Proof.
  intros f m st Hm Hf.
  cbn [process_module bind get put set_visited search_paths visited_modules].
  rewrite Hm, Hf. reflexivity.
Qed.

Lemma process_module_found : forall f m st path fl,
  mem m (visited_modules st) = false ->
  find_yaml_file (search_paths st) m = Some (path, fl) ->
  process_module (S f) (YStr m) st =
  bind (read_imports (loaded fl))
    (fun imports => for_each imports (process_module f) ;;; merge_module m (loaded fl))
    (after_load path fl (set_visited (m :: visited_modules st) st)).
Proof.
  intros f m st path fl Hm Hf.
  cbn [process_module bind get put set_visited search_paths visited_modules].
  rewrite Hm, Hf. destruct fl; reflexivity.
Qed.

Lemma read_imports_some : forall c l, import_list c = Some l -> read_imports c = ret l.
Proof.
  intros c l H. unfold read_imports.
  destruct (py_get c "import" (YSeq [])) eqn:G.
  - rewrite H. reflexivity.
  - unfold import_list in H. rewrite G in H. discriminate.
Qed.

Lemma read_imports_none : forall B c (k : list yval -> AM B) st,
  import_list c = None -> exists x, bind (read_imports c) k st = (Raise x, st).
Proof.
  intros B c k st H. unfold read_imports.
  destruct (py_get c "import" (YSeq [])); [rewrite H |]; eexists; reflexivity.
Qed.

Lemma file_imports_loaded : forall fl l, import_list (loaded fl) = Some l -> file_imports fl = l.
Proof.
  intros [e | v] l H; simpl in *.
  - injection H as <-. reflexivity.
  - rewrite H. reflexivity.
Qed.

Lemma after_load_fields : forall path fl st,
  visited_modules (after_load path fl st) = visited_modules st /\
  search_paths (after_load path fl st) = search_paths st.
Proof. intros path [e | v] st; split; reflexivity. Qed.

Section Preserve.
Variable I : aggregator -> Prop.
Hypothesis HV : forall st m, I st -> mem m (visited_modules st) = false ->
                  I (set_visited (m :: visited_modules st) st).
Hypothesis HE : forall st msg, I st -> I (emit_to msg st).
Hypothesis HW : forall st w, I st -> I (set_widgets w st).
Hypothesis HD : forall st d, I st -> I (set_data d st).
Hypothesis HA : forall st a, I st -> I (set_app a st).

Lemma merge_module_preserves : forall m c, preserves I (merge_module m c).
Proof.
  intros m c. unfold merge_module, merge_widget, merge_data, merge_app, print.
  repeat preserve_step;
    try (apply preserves_modify; intros ? ?; first [apply HE | apply HW | apply HD | apply HA];
         assumption).
Qed.

Lemma process_module_preserves : forall f y, preserves I (process_module f y).
Proof.
  induction f as [| f IH]; intros y; simpl; [apply preserves_out_of_fuel |].
  destruct y; try apply preserves_raise.
  unfold print, load_yaml.
  repeat preserve_step;
    try apply IH; try apply merge_module_preserves;
    try (apply preserves_put; apply HV; assumption);
    try (apply preserves_modify; intros ? ?; apply HE; assumption).
Qed.
End Preserve.

Lemma process_module_grows : forall P W f y,
  preserves (fun st => search_paths st = P /\ incl W (visited_modules st)) (process_module f y).
Proof.
  intros P W. apply process_module_preserves; try (intros; assumption).
  intros st m [H1 H2] _. split; [exact H1 |]. intros x Hx. right. exact (H2 x Hx).
Qed.

Lemma process_module_nodup : forall f y,
  preserves (fun st => NoDup (visited_modules st)) (process_module f y).
Proof.
  apply process_module_preserves; try (intros; assumption).
  intros st m H Hm. simpl. constructor; [intros Hin; apply mem_In in Hin; congruence | exact H].
Qed.

Lemma merge_module_fields : forall V P m c,
  preserves (fun st => visited_modules st = V /\ search_paths st = P) (merge_module m c).
Proof. intros. apply merge_module_preserves; intros; assumption. Qed.

Lemma merge_module_nofuel : forall m c, never_nofuel (merge_module m c).
Proof.
  intros m c. unfold merge_module, merge_widget, merge_data, merge_app, print,
    lift, ret, get, put, modify, raise.
  repeat nofuel_step.
Qed.

(** Every visited name is reachable from the main module. *)
Lemma process_module_reach : forall P main f y,
  (forall t, y = YStr t -> agg_reach P main t) ->
  preserves (fun st => search_paths st = P /\
                       forall s, In s (visited_modules st) -> agg_reach P main s)
    (process_module f y).
Proof.
  intros P main f. induction f as [| f IH]; intros y Hy st HI; [exact HI |].
  destruct y as [| | | m | |]; try exact HI.
  destruct HI as [HP HR].
  destruct (mem m (visited_modules st)) eqn:M;
    [rewrite process_module_visited by exact M; split; assumption |].
  assert (H1 : forall st1, visited_modules st1 = m :: visited_modules st ->
                 search_paths st1 = P ->
                 search_paths st1 = P /\
                 forall s, In s (visited_modules st1) -> agg_reach P main s).
  { intros st1 V1 P1. split; [exact P1 |]. rewrite V1.
    intros s [<- | Hs]; [exact (Hy m eq_refl) | exact (HR s Hs)]. }
  destruct (find_yaml_file (search_paths st) m) as [[path fl] |] eqn:F.
  - rewrite (process_module_found f m st path fl M F).
    destruct (after_load_fields path fl (set_visited (m :: visited_modules st) st)) as [V1 P1].
    simpl in V1, P1.
    specialize (H1 _ V1 (eq_trans P1 HP)).
    destruct (import_list (loaded fl)) as [l |] eqn:IL.
    + rewrite (read_imports_some _ _ IL), bind_ret_l.
      refine (preserves_bind (fun st => search_paths st = P /\
                forall s, In s (visited_modules st) -> agg_reach P main s) _ _ _ _ _ H1);
        [| intros ?; apply merge_module_preserves; intros; assumption].
      apply preserves_for_each_in. intros x Hx. apply IH. intros t ->.
      apply (agg_reach_import P main m path fl t (Hy m eq_refl)); [rewrite <- HP; exact F |].
      rewrite (file_imports_loaded fl l IL). exact Hx.
    + destruct (read_imports_none _ _
                  (fun imports => for_each imports (process_module f) ;;; merge_module m (loaded fl))
                  (after_load path fl (set_visited (m :: visited_modules st) st)) IL) as [x ->].
      exact H1.
  - rewrite process_module_not_found by assumption. exact (H1 (emit_to (WarnNotFound m) (set_visited (m :: visited_modules st) st)) eq_refl HP).
Qed.

(** A visited name outside the stack [K] of names still in progress has
    all its imports visited. *)
Definition closed (P : list dir) (K : list string) (st : aggregator) : Prop :=
  forall s, In s (visited_modules st) -> ~ In s K ->
  forall p fl, find_yaml_file P s = Some (p, fl) ->
  forall t, In (YStr t) (file_imports fl) -> In t (visited_modules st).

Lemma process_module_closed : forall P f y K st st',
  search_paths st = P -> closed P K st -> process_module f y st = (Normal tt, st') ->
  closed P K st' /\ (forall t, y = YStr t -> In t (visited_modules st')) /\
  incl (visited_modules st) (visited_modules st') /\ search_paths st' = P.
Proof.
  intros P f. induction f as [| f IH]; intros y K st st' HP HC E; [discriminate E |].
  assert (FE : forall l K st st', search_paths st = P -> closed P K st ->
                 for_each l (process_module f) st = (Normal tt, st') ->
                 closed P K st' /\ (forall t, In (YStr t) l -> In t (visited_modules st')) /\
                 incl (visited_modules st) (visited_modules st') /\ search_paths st' = P).
  { induction l as [| x l IHl]; intros K1 s1 s1' HP1 HC1 E1.
    - simpl in E1. injection E1 as <-.
      split; [exact HC1 | split; [intros t [] | split; [apply incl_refl | exact HP1]]].
    - simpl in E1. destruct (process_module f x s1) as [e2 s2] eqn:PM.
      rewrite (bind_split _ _ _ _ _ PM) in E1.
      destruct e2 as [[] | [] | z |]; try discriminate E1.
      destruct (IH x K1 s1 s2 HP1 HC1 PM) as (C2 & X2 & I2 & P2).
      destruct (IHl K1 s2 s1' P2 C2 E1) as (C3 & X3 & I3 & P3).
      split; [exact C3 | split; [| split; [intros a Ha; apply I3, I2, Ha | exact P3]]].
      intros t [Ht | Ht]; [apply I3, X2; exact Ht | exact (X3 t Ht)]. }
  destruct y as [| | | m | |]; try (cbn in E; discriminate E).
  destruct (mem m (visited_modules st)) eqn:M.
  - rewrite process_module_visited in E by exact M. injection E as <-.
    split; [exact HC | split; [| split; [apply incl_refl | exact HP]]].
    intros t Ht. injection Ht as <-. apply mem_In. exact M.
  - assert (HC1 : forall st1, visited_modules st1 = m :: visited_modules st ->
                    closed P (m :: K) st1).
    { intros st1 V1 s. rewrite V1. intros [<- | Hs] Hk p fl Fs t Ht.
      - exfalso. apply Hk. left. reflexivity.
      - right. exact (HC s Hs (fun H => Hk (or_intror H)) p fl Fs t Ht). }
    destruct (find_yaml_file (search_paths st) m) as [[path fl] |] eqn:F.
    + rewrite (process_module_found f m st path fl M F) in E.
      destruct (after_load_fields path fl (set_visited (m :: visited_modules st) st)) as [V1 P1].
      simpl in V1, P1.
      destruct (import_list (loaded fl)) as [l |] eqn:IL.
      * rewrite (read_imports_some _ _ IL), bind_ret_l in E.
        destruct (for_each l (process_module f) (after_load path fl (set_visited (m :: visited_modules st) st)))
          as [e2 s2] eqn:FL.
        rewrite (bind_split _ _ _ _ _ FL) in E.
        destruct e2 as [[] | [] | z |]; try discriminate E.
        destruct (FE l (m :: K) _ s2 (eq_trans P1 HP) (HC1 _ V1) FL) as (C2 & X2 & I2 & P2).
        destruct (preserves_out _ _ _ _ _
                    (merge_module_fields (visited_modules s2) (search_paths s2) m (loaded fl))
                    E (conj eq_refl eq_refl)) as [V3 P3].
        rewrite V1 in I2.
        split; [| split; [| split]].
        -- intros s. rewrite V3. intros Hs Hk p fl' Fs t Ht.
           destruct (String.eqb_spec s m) as [-> | Hne].
           ++ rewrite HP in F. rewrite F in Fs. injection Fs as _ <-.
              apply X2. rewrite <- (file_imports_loaded fl l IL). exact Ht.
           ++ exact (C2 s Hs (fun H => match H with or_introl H0 => Hne (eq_sym H0) | or_intror H0 => Hk H0 end) p fl' Fs t Ht).
        -- intros t Ht. injection Ht as <-. rewrite V3. apply I2. left. reflexivity.
        -- intros a Ha. rewrite V3. apply I2. right. exact Ha.
        -- rewrite P3. exact P2.
      * destruct (read_imports_none _ _
                  (fun imports => for_each imports (process_module f) ;;; merge_module m (loaded fl))
                  (after_load path fl (set_visited (m :: visited_modules st) st)) IL) as [x Ex].
        rewrite Ex in E. discriminate E.
    + rewrite process_module_not_found in E by assumption. injection E as <-.
      split; [| split; [| split]].
      * intros s Hs Hk p fl Fs. simpl in Hs. destruct Hs as [<- | Hs].
        -- rewrite HP in F. congruence.
        -- intros t Ht. right. exact (HC s Hs Hk p fl Fs t Ht).
      * intros t Ht. injection Ht as <-. left. reflexivity.
      * intros a Ha. right. exact Ha.
      * exact HP.
Qed.

Lemma sum_ones : forall (l : list yval), list_sum (map (fun _ => 1) l) = length l.
Proof. induction l as [| y l IH]; simpl; [reflexivity | unfold list_sum in *; simpl; lia]. Qed.

(** Each nested call visits a new name of [N]: the unvisited names of [N]
    bound the depth of the recursion. *)
Lemma process_module_nofuel : forall P N f y st,
  (forall m p fl, find_yaml_file P m = Some (p, fl) -> incl (file_imports fl) N) ->
  In y N -> search_paths st = P ->
  pending (fun _ => 1) (visited_modules st) N < f ->
  fst (process_module f y st) <> NoFuel.
Proof.
  intros P N f. induction f as [| f IH]; intros y st HN Hy HP Hf; [lia |].
  destruct y as [| | | m | |]; try (cbn; discriminate).
  destruct (mem m (visited_modules st)) eqn:M;
    [rewrite process_module_visited by exact M; discriminate |].
  destruct (find_yaml_file (search_paths st) m) as [[path fl] |] eqn:F;
    [| rewrite process_module_not_found by assumption; discriminate].
  rewrite (process_module_found f m st path fl M F).
  destruct (after_load_fields path fl (set_visited (m :: visited_modules st) st)) as [V1 P1].
  simpl in V1, P1.
  destruct (import_list (loaded fl)) as [l |] eqn:IL;
    [| destruct (read_imports_none _ _
            (fun imports => for_each imports (process_module f) ;;; merge_module m (loaded fl))
            (after_load path fl (set_visited (m :: visited_modules st) st)) IL) as [x ->];
       discriminate].
  rewrite (read_imports_some _ _ IL), bind_ret_l.
  pose proof (pending_visit (fun _ => 1) (visited_modules st) m N Hy M) as Hv. cbv beta in Hv.
  set (W := m :: visited_modules st) in *.
  assert (FE : forall l', incl l' N -> forall st2, search_paths st2 = P ->
                 incl W (visited_modules st2) ->
                 fst (for_each l' (process_module f) st2) <> NoFuel).
  { induction l' as [| x l' IHl]; intros Hl st2 HP2 HW2; simpl; [discriminate |].
    destruct (process_module f x st2) as [e2 st3] eqn:PM.
    rewrite (bind_split _ _ _ _ _ PM).
    pose proof (pending_mono (fun _ => 1) W (visited_modules st2) N HW2) as Hm.
    destruct e2 as [[] | [] | z |]; try (simpl; discriminate).
    - destruct (preserves_out _ _ _ _ _ (process_module_grows P W f x) PM (conj HP2 HW2))
        as [HP3 HW3].
      apply IHl; [intros a Ha; apply Hl; right; exact Ha | exact HP3 | exact HW3].
    - exfalso. apply (IH x st2 HN (Hl x (or_introl eq_refl)) HP2); [lia |].
      rewrite PM. reflexivity. }
  destruct (for_each l (process_module f) (after_load path fl (set_visited W st)))
    as [e2 st2] eqn:FL.
  rewrite (bind_split _ _ _ _ _ FL).
  destruct e2 as [[] | [] | z |]; try (simpl; discriminate).
  - apply merge_module_nofuel.
  - exfalso. refine (FE l _ _ (eq_trans P1 HP) _ _).
    + rewrite HP in F. rewrite <- (file_imports_loaded fl l IL). exact (HN m path fl F).
    + rewrite V1. apply incl_refl.
    + rewrite FL. reflexivity.
Qed.

(** [YAMLAggregator.aggregate] on a fresh aggregator: it terminates, visits
    no name twice, and when it returns the visited names are the
    reachable ones. *)
Lemma aggregate_traversal : forall A sps m,
  fst (aggregate (new A sps) m) <> NoFuel /\
  NoDup (visited_modules (snd (aggregate (new A sps) m))) /\
  (forall v, fst (aggregate (new A sps) m) = Normal v ->
     forall s, In s (visited_modules (snd (aggregate (new A sps) m))) <->
               agg_reach (search_paths (new A sps)) m s).
Proof.
  intros A sps m. unfold aggregate. rewrite aggregate_body_eq.
  set (a := new A sps). set (P := search_paths a).
  set (st0 := emit_to (Aggregating m) a).
  assert (HP0 : search_paths st0 = P) by reflexivity.
  assert (V0 : visited_modules st0 = []) by reflexivity.
  set (N := all_names P m).
  assert (NF : fst (process_module (fuel_for P m) (YStr m) st0) <> NoFuel).
  { apply (process_module_nofuel P N); [| left; reflexivity | exact HP0 |].
    - intros m' p fl F x Hx. right.
      exact (in_yaml_entries file_imports P m' p fl x F Hx).
    - rewrite V0. pose proof (pending_le (fun _ => 1) [] N) as H.
      rewrite sum_ones in H. unfold fuel_for. fold N. lia. }
  pose proof (process_module_nodup (fuel_for P m) (YStr m) st0 (NoDup_nil _)) as ND.
  pose proof (process_module_reach P m (fuel_for P m) (YStr m)
                (fun t Ht => ltac:(injection Ht as <-; apply agg_reach_main)) st0
                (conj HP0 (fun s (Hs : In s []) => match Hs with end))) as HR.
  destruct (process_module (fuel_for P m) (YStr m) st0) as [e st] eqn:PM.
  simpl in NF, ND, HR. destruct HR as [_ HR].
  destruct e as [[] | [] | x |]; simpl.
  - split; [discriminate | split; [exact ND |]].
    intros v _ s. split; [apply HR |].
    destruct (process_module_closed P _ _ [] st0 st HP0
                (fun s (Hs : In s []) => match Hs with end) PM) as (HC & Hm & _).
    intros R. induction R as [| s p fl t R IHR F Ht].
    + exact (Hm m eq_refl).
    + exact (HC s IHR (fun H => H) p fl F t Ht).
  - split; [discriminate | split; [exact ND | intros v H; discriminate H]].
  - exfalso. apply NF. reflexivity.
Qed.
End AggTraversal.

(** ** What the strict loader stores, and a second load *)

Lemma preserves_bind_lift {S R A B} (I : S -> Prop) e (o : option A) (k : A -> ST S R B) :
  (forall a, o = Some a -> preserves I (k a)) -> preserves I (bind (lift e o) k).
Proof. destruct o as [a |]; intros H; [exact (H a eq_refl) | intros s Hs; exact Hs]. Qed.

Lemma content_items_some : forall name c w wi,
  py_get c name (YMap []) = Some w -> py_items w = Some wi -> content_items name c = wi.
Proof.
  intros name c w wi G I. unfold content_items. rewrite G.
  destruct w; try discriminate. injection I as ->. reflexivity.
Qed.

Module LangMore.
Import Lang.
Import LangFacts.

Lemma lang_prov_mono : forall P fr fr',
  self fr' = self fr -> incl (visited fr) (visited fr') -> lang_prov P fr -> lang_prov P fr'.
Proof.
  intros P fr fr' HS HV (HW & HD & HA). unfold lang_prov. rewrite HS.
  split; [| split].
  - intros k d L. destruct (HW k d L) as (m & p & v & w & Hm & R). exists m, p, v, w. split; [apply HV; exact Hm | exact R].
  - intros k d L. destruct (HD k d L) as (m & p & v & Hm & R). exists m, p, v. split; [apply HV; exact Hm | exact R].
  - intros N. destruct (HA N) as (m & p & v & Hm & R). exists m, p, v. split; [apply HV; exact Hm | exact R].
Qed.

(** Processing the file of a visited module [s] stores only entries of
    that file. *)
Lemma process_content_prov : forall P s p d,
  find_yaml_file P s = Some (p, Document d) ->
  preserves (fun fr => layouts_paths (self fr) = P /\ lang_prov P fr /\ In s (visited fr))
    (process_content s (if is_none d then YMap [] else d)).
Proof.
  intros P s p d F. unfold process_content.
  set (c := if is_none d then YMap [] else d).
  apply preserves_bind_lift. intros w Gw.
  apply preserves_bind_lift. intros wi Iw.
  pose proof (content_items_some _ _ _ _ Gw Iw) as Hwi.
  apply preserves_bind.
  { apply preserves_for_each_in. intros [k0 d0] Hin. unfold merge_widget.
    apply preserves_bind_get. intros fr (HP & (HW & HD & HA) & Hs).
    destruct (dict_mem _ _); [apply preserves_early_return |].
    apply preserves_put. split; [exact HP | split; [| exact Hs]].
    split; [| split; [exact HD | exact HA]].
    cbn [self set_self set_widgets widget_definitions]. intros k d' L. simpl fst in L. simpl snd in L.
    destruct (String.eqb_spec k (s ++ "." ++ key_str k0)%string) as [-> | Hne].
    - rewrite dict_lookup_set_same in L. injection L as <-.
      exists s, p, d, k0. split; [exact Hs | split; [exact F | split; [| reflexivity]]].
      fold c. rewrite Hwi. exact Hin.
    - rewrite dict_lookup_set_other in L by exact Hne. exact (HW k d' L). }
  intros _.
  apply preserves_bind_lift. intros dv Gd.
  apply preserves_bind_lift. intros di Id.
  pose proof (content_items_some _ _ _ _ Gd Id) as Hdi.
  apply preserves_bind.
  { apply preserves_for_each_in. intros [k0 d0] Hin. unfold merge_data.
    apply preserves_bind_get. intros fr (HP & (HW & HD & HA) & Hs).
    destruct (ydict_mem _ _) eqn:M; [apply preserves_early_return |].
    apply preserves_put. split; [exact HP | split; [| exact Hs]].
    split; [exact HW | split; [| exact HA]].
    cbn [self set_self set_data data_definitions]. intros k d' L. simpl fst in L, M. simpl snd in L.
    rewrite ydict_set_new in L by (intros Hk; apply ydict_mem_In in Hk; congruence).
    apply in_app_iff in L as [L | [E | []]].
    - exact (HD k d' L).
    - injection E as <- <-.
      exists s, p, d. split; [exact Hs | split; [exact F |]].
      fold c. rewrite Hdi. exact Hin. }
  intros _.
  apply preserves_bind_lift. intros a Ga.
  apply preserves_bind.
  { unfold merge_app. destruct (is_none a) eqn:Na; [apply preserves_ret |].
    apply preserves_bind_get. intros fr (HP & (HW & HD & HA) & Hs).
    destruct (negb _); [apply preserves_early_return |].
    apply preserves_put. split; [exact HP | split; [| exact Hs]].
    split; [exact HW | split; [exact HD |]].
    cbn [self set_self set_app app_config]. intros _.
    exists s, p, d. split; [exact Hs | split; [exact F | exact Ga]]. }
  intros _.
  apply preserves_bind_lift. intros im _. unfold extend_queue.
  destruct (truthy im); [| apply preserves_ret].
  apply preserves_bind_lift. intros items _.
  apply preserves_modify. intros fr H. exact H.
Qed.

Lemma loop_prov : forall P f fr,
  layouts_paths (self fr) = P -> lang_prov P fr ->
  layouts_paths (self (snd (loop f fr))) = P /\ lang_prov P (snd (loop f fr)).
Proof.
  intros P f. induction f as [| f IH]; intros [l q v] HP Hp; [split; assumption |].
  simpl in HP. destruct q as [| cur rest]; [cbn; split; assumption |].
  destruct cur as [| | | s | |]; try (cbn; split; assumption).
  destruct (mem s v) eqn:M.
  - rewrite LangFacts.loop_visited by exact M. apply (IH (mkFrame l rest v)); assumption.
  - rewrite LangFacts.loop_unvisited by exact M.
    assert (Hp1 : lang_prov P (mkFrame l rest (s :: v)))
      by (apply (lang_prov_mono P (mkFrame l (YStr s :: rest) v)); [reflexivity | intros x Hx; right; exact Hx | exact Hp]).
    destruct (find_yaml_file (layouts_paths l) s) as [[path [err | d]] |] eqn:F;
      try (split; assumption).
    destruct (process_content s (if is_none d then YMap [] else d) (mkFrame l rest (s :: v)))
      as [e1 fr1] eqn:PC.
    rewrite (bind_split _ _ _ _ _ PC).
    rewrite HP in F.
    pose proof (process_content_prov P s path d F (mkFrame l rest (s :: v))
                  (conj HP (conj Hp1 (or_introl eq_refl)))) as H1.
    rewrite PC in H1. simpl in H1. destruct H1 as (HP1 & Hpr1 & _).
    destruct e1 as [[] | r | x |]; try (split; assumption).
    exact (IH fr1 HP1 Hpr1).
Qed.

(** [Lang.load_main_module] on a new object: what it stores comes from the
    files of the visited modules, however the call ends. *)
Lemma load_main_module_prov : forall b ps m,
  lang_prov (b :: ps) (snd (load_main_module (new b ps) m)).
Proof.
  intros b ps m. rewrite LangFacts.load_main_module_eq.
  destruct (loop_prov (b :: ps) (fuel_for (layouts_paths (new b ps)) (seeds m))
              (mkFrame (new b ps) (seeds m) []) eq_refl) as [_ H].
  - split; [intros k d L; discriminate L | split; [intros k d [] | intros H; discriminate H]].
  - destruct (loop _ _) as [e fr]. exact H.
Qed.

(** A widget loop that completes stores every widget it iterates and
    keeps the stored keys. *)
Lemma widget_loop_keys : forall c ws fr fr',
  for_each ws (merge_widget c) fr = (Normal tt, fr') ->
  (forall w, In w (map fst ws) -> In (c ++ "." ++ key_str w)%string (map fst (widget_definitions (self fr')))) /\
  (forall k, In k (map fst (widget_definitions (self fr))) -> In k (map fst (widget_definitions (self fr')))) /\
  visited fr' = visited fr /\ layouts_paths (self fr') = layouts_paths (self fr).
Proof.
  intros c ws. induction ws as [| [w d] r IH]; intros fr fr' E.
  - simpl in E. injection E as <-. split; [intros w [] | split; [intros k Hk; exact Hk | split; reflexivity]].
  - simpl in E. pose proof (LangFacts.merge_widget_qualified_eq c w d fr) as MW.
    destruct (dict_mem (c ++ "." ++ key_str w)%string (widget_definitions (self fr))) eqn:M;
      rewrite (bind_split _ _ _ _ _ MW) in E; [discriminate E |].
    destruct (IH _ _ E) as (H1 & H2 & H3 & H4).
    cbn [self set_self set_widgets widget_definitions visited layouts_paths] in H2, H3, H4.
    rewrite dict_set_keys, M in H2.
    split; [| split; [| split; assumption]].
    + intros w' [<- | Hw']; [| exact (H1 w' Hw')].
      apply H2. apply in_app_iff. right. left. reflexivity.
    + intros k Hk. apply H2. apply in_app_iff. left. exact Hk.
Qed.

(** A module processed without error has all its widgets stored. *)
Lemma process_content_keys : forall c content fr fr',
  process_content c content fr = (Normal tt, fr') ->
  (forall w, In w (map fst (content_items "widgets" content)) ->
     In (c ++ "." ++ key_str w)%string (map fst (widget_definitions (self fr')))) /\
  (forall k, In k (map fst (widget_definitions (self fr))) -> In k (map fst (widget_definitions (self fr')))).
Proof.
  intros c content fr fr' E. unfold process_content in E.
  apply bind_normal_inv in E as (w & s1 & E1 & E). unfold lift in E1.
  destruct (py_get content "widgets" (YMap [])) eqn:G; [injection E1 as -> <- | discriminate].
  apply bind_normal_inv in E as (wi & s2 & E2 & E). unfold lift in E2.
  destruct (py_items w) eqn:I; [injection E2 as -> <- | discriminate].
  rewrite (content_items_some _ _ _ _ G I).
  apply bind_normal_inv in E as (u & s3 & E3 & E). destruct u.
  destruct (widget_loop_keys c wi fr s3 E3) as (H1 & H2 & _).
  cbv beta in E.
  match type of E with
  | ?r s3 = _ =>
      assert (PR : preserves (fun s => widget_definitions (self s) = widget_definitions (self s3)) r)
  end.
  { unfold merge_data, merge_app, extend_queue.
    repeat preserve_step;
      try (apply preserves_put; simpl; assumption);
      try (apply preserves_modify; intros ? ?; simpl; assumption). }
  specialize (PR s3 eq_refl). rewrite E in PR. simpl in PR. rewrite PR.
  split; assumption.
Qed.

Lemma loop_complete_widgets : forall P f fr fr',
  layouts_paths (self fr) = P -> lang_complete P fr -> loop f fr = (Normal tt, fr') ->
  lang_complete P fr'.
Proof.
  intros P f. induction f as [| f IH]; intros [l q v] fr' HP HC E; [discriminate E |].
  simpl in HP. destruct q as [| cur rest]; [cbn in E; injection E as <-; exact HC |].
  destruct cur as [| | | s | |]; try (cbn in E; discriminate E).
  destruct (mem s v) eqn:M.
  - rewrite LangFacts.loop_visited in E by exact M. exact (IH (mkFrame l rest v) fr' HP HC E).
  - rewrite LangFacts.loop_unvisited in E by exact M.
    destruct (find_yaml_file (layouts_paths l) s) as [[path [err | d]] |] eqn:F;
      try discriminate E.
    destruct (process_content s (if is_none d then YMap [] else d) (mkFrame l rest (s :: v)))
      as [e1 fr1] eqn:PC.
    rewrite (bind_split _ _ _ _ _ PC) in E.
    destruct e1 as [[] | r | x |]; try discriminate E.
    destruct (LangTraversal.process_content_queue _ _ _ _ PC) as (_ & V1 & P1).
    destruct (process_content_keys _ _ _ _ PC) as [K1 K2].
    simpl in V1, P1, K2.
    apply (IH fr1 fr'); [rewrite P1; exact HP | | exact E].
    intros m p' v' w Hm Fm Hw. rewrite V1 in Hm. destruct Hm as [<- | Hm].
    + rewrite <- HP, F in Fm. injection Fm as _ <-. exact (K1 w Hw).
    + exact (K2 _ (HC m p' v' w Hm Fm Hw)).
Qed.

(** With the first widget key of [c] stored, processing [c] stops on it. *)
Lemma process_content_first_dup : forall c content w d rest fr,
  content_items "widgets" content = (w, d) :: rest ->
  In (c ++ "." ++ key_str w)%string (map fst (widget_definitions (self fr))) ->
  fst (process_content c content fr) = Return (Error (DuplicateWidget (c ++ "." ++ key_str w)%string)).
Proof.
  intros c content w d rest fr H Hin. unfold content_items in H.
  destruct (py_get content "widgets" (YMap [])) as [[| | | | | kvs] |] eqn:G; try discriminate.
  subst kvs. unfold process_content. rewrite G. rewrite !LangFacts.bind_lift_some.
  cbn [py_items]. rewrite LangFacts.bind_lift_some. cbn [for_each].
  pose proof (LangFacts.merge_widget_qualified_eq c w d fr) as MW.
  apply dict_mem_In in Hin. rewrite Hin in MW.
  unfold bind at 1. unfold bind at 1. rewrite MW. reflexivity.
Qed.

(** On a second run from an object holding the widgets of [c], the loop
    completes only without visiting [c]. *)
Lemma loop_avoids : forall L c p v w d rest f fr fr',
  find_yaml_file (layouts_paths L) c = Some (p, Document v) ->
  content_items "widgets" (if is_none v then YMap [] else v) = (w, d) :: rest ->
  In (c ++ "." ++ key_str w)%string (map fst (widget_definitions L)) ->
  extends L (self fr) -> ~ In c (visited fr) ->
  loop f fr = (Normal tt, fr') -> ~ In c (visited fr').
Proof.
  intros L c p v w d rest f. induction f as [| f IH]; intros [l q vis] fr' F Hw Hin HX Hc E;
    [discriminate E |].
  simpl in HX, Hc. destruct q as [| cur rest'];
    [cbn in E; injection E as <-; exact Hc |].
  destruct cur as [| | | s | |]; try (cbn in E; discriminate E).
  destruct (mem s vis) eqn:M.
  - rewrite LangFacts.loop_visited in E by exact M. exact (IH (mkFrame l rest' vis) fr' F Hw Hin HX Hc E).
  - rewrite LangFacts.loop_unvisited in E by exact M.
    destruct (find_yaml_file (layouts_paths l) s) as [[path [err | d']] |] eqn:Fs;
      try discriminate E.
    destruct (process_content s (if is_none d' then YMap [] else d') (mkFrame l rest' (s :: vis)))
      as [e1 fr1] eqn:PC.
    rewrite (bind_split _ _ _ _ _ PC) in E.
    destruct e1 as [[] | r | x |]; try discriminate E.
    destruct (String.eqb_spec s c) as [-> | Hne].
    + exfalso. destruct HX as (HL & [wx HWx] & _).
      rewrite HL, F in Fs. injection Fs as _ <-.
      assert (Hin' : In (c ++ "." ++ key_str w)%string
                       (map fst (widget_definitions (self (mkFrame l rest' (c :: vis)))))).
      { simpl. rewrite HWx, map_app. apply in_app_iff. left. exact Hin. }
      pose proof (process_content_first_dup c _ w d rest _ Hw Hin') as D.
      rewrite PC in D. discriminate D.
    + pose proof (LangFacts.process_content_grows L s (if is_none d' then YMap [] else d')
                    (mkFrame l rest' (s :: vis)) HX) as G.
      pose proof (LangFacts.process_content_keeps_visited (s :: vis) s (if is_none d' then YMap [] else d')
                    (mkFrame l rest' (s :: vis)) eq_refl) as V.
      rewrite PC in G, V. simpl in G, V.
      apply (IH fr1 fr' F Hw Hin G); [rewrite V; intros [H | H]; [exact (Hne H) | exact (Hc H)] | exact E].
Qed.

(** Every name visited by the loop stays visited. *)
Lemma loop_visited_suffix : forall f V,
  preserves (fun fr => exists pre, visited fr = pre ++ V) (loop f).
Proof.
  induction f as [| f IH]; intros V; simpl; [apply preserves_out_of_fuel |].
  apply preserves_bind_get. intros fr Hfr.
  destruct (queue fr) as [| cur rest]; [apply preserves_ret |].
  apply preserves_bind; [apply preserves_put; exact Hfr | intros _].
  unfold visit. destruct cur; try apply preserves_raise.
  apply preserves_bind_get. intros fr' [pre Hpre].
  destruct (mem s (visited fr')); [apply IH |].
  apply preserves_bind; [apply preserves_put; exists (s :: pre); simpl; rewrite Hpre; reflexivity | intros _].
  destruct (find_yaml_file (layouts_paths (self fr')) s) as [[path [e | v]] |];
    try apply preserves_early_return.
  apply preserves_bind; [| intros _; apply IH].
  intros st [pre' Hpre']. exists pre'.
  rewrite (LangFacts.process_content_keeps_visited (visited st) s _ st eq_refl). exact Hpre'.
Qed.
End LangMore.

(** ** The app block of a completed strict load *)

Module LangApp.
Import Lang.

(** A processed module with a non-null [app] value: the stored app block
    is its value and no other visited module has one. *)
Definition app_inv (P : list dir) (fr : frame) : Prop :=
  forall c p v a, In c (visited fr) -> find_yaml_file P c = Some (p, Document v) ->
    py_get (if is_none v then YMap [] else v) "app" YNull = Some a -> is_none a = false ->
    app_config (self fr) = a /\
    forall c' p' v' a', In c' (visited fr) -> find_yaml_file P c' = Some (p', Document v') ->
      py_get (if is_none v' then YMap [] else v') "app" YNull = Some a' -> is_none a' = false ->
      c' = c.

(** A module processed without error stores its [app] value if it is not
    null, which requires that no app block was stored before, and keeps the
    stored one otherwise. *)
Lemma process_content_app : forall cur content fr fr',
  process_content cur content fr = (Normal tt, fr') ->
  exists a, py_get content "app" YNull = Some a /\
    (is_none a = true -> app_config (self fr') = app_config (self fr)) /\
    (is_none a = false -> is_none (app_config (self fr)) = true /\ app_config (self fr') = a).
Proof.
  intros cur content fr fr' E. unfold process_content in E.
  apply bind_normal_inv in E as (w & s1 & E1 & E). unfold lift in E1.
  destruct (py_get content "widgets" (YMap [])); [injection E1 as -> <- | discriminate].
  apply bind_normal_inv in E as (wi & s2 & E2 & E). unfold lift in E2.
  destruct (py_items w); [injection E2 as -> <- | discriminate].
  apply bind_normal_inv in E as ([] & s3 & E3 & E).
  assert (A3 : app_config (self s3) = app_config (self fr)).
  { assert (Pw : preserves (fun s => app_config (self s) = app_config (self fr))
                   (for_each wi (merge_widget cur))).
    { apply preserves_for_each. intros x. unfold merge_widget.
      repeat preserve_step; try (apply preserves_put; assumption). }
    specialize (Pw fr eq_refl). rewrite E3 in Pw. exact Pw. }
  apply bind_normal_inv in E as (d & s4 & E4 & E). unfold lift in E4.
  destruct (py_get content "data" (YMap [])); [injection E4 as -> <- | discriminate].
  apply bind_normal_inv in E as (di & s5 & E5 & E). unfold lift in E5.
  destruct (py_items d); [injection E5 as -> <- | discriminate].
  apply bind_normal_inv in E as ([] & s6 & E6 & E).
  assert (A6 : app_config (self s6) = app_config (self fr)).
  { assert (Pd : preserves (fun s => app_config (self s) = app_config (self fr))
                   (for_each di merge_data)).
    { apply preserves_for_each. intros x. unfold merge_data.
      repeat preserve_step; try (apply preserves_put; assumption). }
    specialize (Pd s3 A3). rewrite E6 in Pd. exact Pd. }
  apply bind_normal_inv in E as (a & s7 & E7 & E). unfold lift in E7.
  destruct (py_get content "app" YNull); [injection E7 as -> <- | discriminate].
  exists a. split; [reflexivity |].
  apply bind_normal_inv in E as ([] & s8 & E8 & E).
  cbv beta in E.
  match type of E with
  | ?r s8 = _ =>
      assert (PQ : preserves (fun s => app_config (self s) = app_config (self s8)) r)
  end.
  { apply preserves_bind_lift. intros im _. unfold extend_queue.
    destruct (truthy im); [| apply preserves_ret].
    apply preserves_bind_lift. intros items _.
    apply preserves_modify. intros s H. exact H. }
  specialize (PQ s8 eq_refl). rewrite E in PQ. simpl in PQ. rewrite PQ.
  unfold merge_app in E8. destruct (is_none a) eqn:Na.
  - injection E8 as <-. split; [intros _; rewrite A6; reflexivity | intros H; discriminate H].
  - unfold bind, get in E8. rewrite A6 in E8.
    destruct (negb (is_none (app_config (self fr)))) eqn:Nb; [discriminate E8 |].
    unfold put in E8. injection E8 as <-.
    split; [intros H; discriminate H |]. intros _.
    split; [destruct (is_none (app_config (self fr))); [reflexivity | discriminate Nb] | reflexivity].
Qed.

Lemma loop_app_inv : forall P f fr fr',
  layouts_paths (self fr) = P -> app_inv P fr -> loop f fr = (Normal tt, fr') ->
  app_inv P fr'.
Proof.
  intros P f. induction f as [| f IH]; intros [l q v] fr' HP HI E; [discriminate E |].
  simpl in HP. destruct q as [| cur rest]; [cbn in E; injection E as <-; exact HI |].
  destruct cur as [| | | s | |]; try (cbn in E; discriminate E).
  destruct (mem s v) eqn:M.
  - rewrite LangFacts.loop_visited in E by exact M. exact (IH (mkFrame l rest v) fr' HP HI E).
  - rewrite LangFacts.loop_unvisited in E by exact M.
    destruct (find_yaml_file (layouts_paths l) s) as [[path [err | d]] |] eqn:F;
      try discriminate E.
    destruct (process_content s (if is_none d then YMap [] else d) (mkFrame l rest (s :: v)))
      as [e1 fr1] eqn:PC.
    rewrite (bind_split _ _ _ _ _ PC) in E.
    destruct e1 as [[] | r | x |]; try discriminate E.
    destruct (LangTraversal.process_content_queue _ _ _ _ PC) as (_ & V1 & P1).
    destruct (process_content_app _ _ _ _ PC) as (a & Ga & Hnull & Hset).
    simpl in V1, P1, Hnull, Hset.
    rewrite HP in F.
    apply (IH fr1 fr'); [rewrite P1; exact HP | | exact E].
    assert (Own : forall p' v' a', find_yaml_file P s = Some (p', Document v') ->
                    py_get (if is_none v' then YMap [] else v') "app" YNull = Some a' -> a' = a).
    { intros p' v' a' F' G'. rewrite F in F'. injection F' as _ <-. rewrite Ga in G'.
      injection G' as <-. reflexivity. }
    intros c p' v' a' Hc Fc Gc Nc. rewrite V1 in Hc.
    destruct (String.eqb_spec c s) as [-> | Hne].
    + rewrite (Own p' v' a' Fc Gc) in Nc |- *.
      destruct (Hset Nc) as [Hold Hnew]. split; [exact Hnew |].
      intros c2 p2 v2 a2 Hc2 Fc2 Gc2 Nc2. rewrite V1 in Hc2.
      destruct Hc2 as [<- | Hc2]; [reflexivity |].
      exfalso. destruct (HI c2 p2 v2 a2 Hc2 Fc2 Gc2 Nc2) as [Hold2 _].
      simpl in Hold2. rewrite Hold2, Nc2 in Hold. discriminate Hold.
    + destruct Hc as [Hc | Hc]; [exfalso; exact (Hne (eq_sym Hc)) |].
      destruct (HI c p' v' a' Hc Fc Gc Nc) as [Hold Huniq]. simpl in Hold.
      assert (Ns : is_none a = true).
      { destruct (is_none a) eqn:Na; [reflexivity |].
        destruct (Hset eq_refl) as [H0 _]. rewrite Hold, Nc in H0. discriminate H0. }
      split; [rewrite (Hnull Ns); exact Hold |].
      intros c2 p2 v2 a2 Hc2 Fc2 Gc2 Nc2. rewrite V1 in Hc2.
      destruct Hc2 as [<- | Hc2].
      * exfalso. rewrite (Own p2 v2 a2 Fc2 Gc2), Ns in Nc2. discriminate Nc2.
      * exact (Huniq c2 p2 v2 a2 Hc2 Fc2 Gc2 Nc2).
Qed.

(** [load_main_module] on a new object returning [Ok]: the three facts
    about the final frame that the final check relies on. *)
Lemma load_main_module_ok_frame : forall b ps m,
  fst (load_main_module (new b ps) m) = Returned Ok ->
  lang_complete (b :: ps) (snd (load_main_module (new b ps) m)) /\
  app_inv (b :: ps) (snd (load_main_module (new b ps) m)).
Proof.
  intros b ps m H. rewrite LangFacts.load_main_module_eq in H |- *.
  pose proof (LangFacts.loop_never_ok (fuel_for (layouts_paths (new b ps)) (seeds m))
                (mkFrame (new b ps) (seeds m) [])) as Nok.
  destruct (loop _ _) as [e fr] eqn:L.
  destruct e as [[] | r | x |]; simpl in H |- *; try discriminate H.
  - split.
    + refine (LangMore.loop_complete_widgets (b :: ps) _ (mkFrame (new b ps) (seeds m) []) fr eq_refl _ L).
      intros ? ? ? ? [].
    + refine (loop_app_inv (b :: ps) _ (mkFrame (new b ps) (seeds m) []) fr eq_refl _ L).
      intros ? ? ? ? [].
  - injection H as ->. exfalso. apply Nok. reflexivity.
Qed.
End LangApp.

(** ** What the permissive aggregator stores and reports *)

Module AggMore.
Import YAMLAggregator.
Import AggTraversal.

(** Everything an aggregator stores comes from the content of a visited
    module file: a widget with the module that defined it, a data entry,
    the app block. *)
Definition agg_prov (P : list dir) (st : aggregator) : Prop :=
  (forall w m d, In (w, (m, d)) (widgets st) ->
     In m (visited_modules st) /\
     exists p fl w', find_yaml_file P m = Some (p, fl) /\ key_norm w' = key_norm w /\
       In (w', d) (content_items "widgets" (loaded fl))) /\
  (forall k d, In (k, d) (data st) ->
     exists m p fl k', In m (visited_modules st) /\ find_yaml_file P m = Some (p, fl) /\
       key_norm k' = key_norm k /\ In (k', d) (content_items "data" (loaded fl))) /\
  (is_none (app_config st) = false ->
     exists m p fl, In m (visited_modules st) /\ find_yaml_file P m = Some (p, fl) /\
       py_get (loaded fl) "app" YNull = Some (app_config st)).

Lemma agg_prov_mono : forall P st st',
  widgets st' = widgets st -> data st' = data st -> app_config st' = app_config st ->
  incl (visited_modules st) (visited_modules st') -> agg_prov P st -> agg_prov P st'.
Proof.
  intros P st st' HW HD HA HV (PW & PD & PA). unfold agg_prov. rewrite HW, HD, HA.
  split; [| split].
  - intros w m d L. destruct (PW w m d L) as [Hm R]. split; [apply HV; exact Hm | exact R].
  - intros k d L. destruct (PD k d L) as (m & p & fl & k' & Hm & R). exists m, p, fl, k'. split; [apply HV; exact Hm | exact R].
  - intros N. destruct (PA N) as (m & p & fl & Hm & R). exists m, p, fl. split; [apply HV; exact Hm | exact R].
Qed.

(** Merging the content of a visited module [m] stores only entries of
    that content. *)
Lemma merge_module_prov : forall P W m p fl,
  In m W -> find_yaml_file P m = Some (p, fl) ->
  preserves (fun st => search_paths st = P /\ incl W (visited_modules st) /\ agg_prov P st)
    (merge_module m (loaded fl)).
Proof.
  intros P W m p fl HmW F. unfold merge_module.
  apply preserves_bind_lift. intros ws Gw.
  apply preserves_bind_lift. intros wi Iw.
  pose proof (content_items_some _ _ _ _ Gw Iw) as Hwi.
  apply preserves_bind.
  { apply preserves_for_each_in. intros [k0 d0] Hin. unfold merge_widget, print.
    apply preserves_bind_get. intros st0 _.
    apply preserves_bind.
    - match goal with |- context [if ?b then _ else _] => destruct b end; [| apply preserves_ret].
      apply preserves_modify. intros st H. exact H.
    - intros _. apply preserves_modify. intros st (HP & HV & PW & PD & PA).
      split; [exact HP | split; [exact HV | split; [| split; [exact PD | exact PA]]]].
      cbn [widgets set_widgets visited_modules]. intros w m' d L. simpl fst in L. simpl snd in L.
      apply ydict_set_In in L as [L | [E K]]; [exact (PW w m' d L) |].
      simpl in E, K. injection E as <- <-. apply key_eqb_spec in K.
      split; [apply HV; exact HmW |]. exists p, fl, k0. split; [exact F | split; [exact K | rewrite Hwi; exact Hin]]. }
  intros _.
  apply preserves_bind_lift. intros ds Gd.
  apply preserves_bind_lift. intros di Id.
  pose proof (content_items_some _ _ _ _ Gd Id) as Hdi.
  apply preserves_bind.
  { apply preserves_for_each_in. intros [k0 d0] Hin. unfold merge_data, print.
    apply preserves_bind_get. intros st0 _.
    apply preserves_bind.
    - match goal with |- context [if ?b then _ else _] => destruct b end; [| apply preserves_ret].
      apply preserves_modify. intros st H. exact H.
    - intros _. apply preserves_modify. intros st (HP & HV & PW & PD & PA).
      split; [exact HP | split; [exact HV | split; [exact PW | split; [| exact PA]]]].
      cbn [data set_data visited_modules]. intros k d L. simpl fst in L. simpl snd in L.
      apply ydict_set_In in L as [L | [E K]]; [exact (PD k d L) |].
      simpl in E, K. subst d. apply key_eqb_spec in K.
      exists m, p, fl, k0. split; [apply HV; exact HmW | split; [exact F | split; [exact K | rewrite Hdi; exact Hin]]]. }
  intros _. unfold merge_app.
  destruct (loaded fl) as [| | | | | kvs] eqn:LF; try apply preserves_raise.
  destruct (ydict_lookup (KStr "app") kvs) as [a |] eqn:LA; [| apply preserves_ret].
  apply preserves_modify. intros st (HP & HV & PW & PD & PA).
  split; [exact HP | split; [exact HV | split; [exact PW | split; [exact PD |]]]].
  cbn [app_config set_app visited_modules]. intros _.
  exists m, p, fl. split; [apply HV; exact HmW | split; [exact F |]].
  rewrite LF. simpl. rewrite LA. reflexivity.
Qed.

Lemma process_module_prov : forall P f W y,
  preserves (fun st => search_paths st = P /\ incl W (visited_modules st) /\ agg_prov P st)
    (process_module f y).
Proof.
  intros P f. induction f as [| f IH]; intros W y st HI; [exact HI |].
  destruct y as [| | | m | |]; try exact HI.
  destruct HI as (HP & HW & Hp).
  destruct (mem m (visited_modules st)) eqn:M;
    [rewrite process_module_visited by exact M; exact (conj HP (conj HW Hp)) |].
  destruct (find_yaml_file (search_paths st) m) as [[path fl] |] eqn:F.
  - rewrite (process_module_found f m st path fl M F).
    set (st1 := after_load path fl (set_visited (m :: visited_modules st) st)).
    set (I' := fun st' => search_paths st' = P /\ incl (m :: visited_modules st) (visited_modules st') /\
                          agg_prov P st').
    assert (H1 : I' st1).
    { subst I' st1. destruct (after_load_fields path fl (set_visited (m :: visited_modules st) st)) as [V1 P1].
      simpl in V1, P1. split; [rewrite P1; exact HP | split; [rewrite V1; apply incl_refl |]].
      apply (agg_prov_mono P st); try (destruct fl; reflexivity).
      rewrite V1. intros x Hx. right. exact Hx. exact Hp. }
    assert (HR : preserves I' (bind (read_imports (loaded fl))
                   (fun imports => for_each imports (process_module f) ;;; merge_module m (loaded fl)))).
    { apply preserves_bind.
      - unfold read_imports. destruct (py_get (loaded fl) "import" (YSeq []));
          [apply preserves_lift | apply preserves_raise].
      - intros imports. apply preserves_bind; [apply preserves_for_each; intros x; apply IH |].
        intros _. rewrite HP in F. exact (merge_module_prov P (m :: visited_modules st) m path fl (or_introl eq_refl) F). }
    destruct (HR st1 H1) as (HP2 & HW2 & Hp2).
    split; [exact HP2 | split; [intros x Hx; apply HW2; right; apply HW; exact Hx | exact Hp2]].
  - rewrite process_module_not_found by assumption.
    split; [exact HP | split; [intros x Hx; right; apply HW; exact Hx |]].
    apply (agg_prov_mono P st); try reflexivity; [intros x Hx; right; exact Hx | exact Hp].
Qed.

Lemma merge_module_counts : forall m c,
  preserves (fun st => length (visited_modules st) = visit_reports (output st)) (merge_module m c).
Proof.
  intros m c. unfold merge_module, merge_widget, merge_data, merge_app, print.
  repeat preserve_step;
    apply preserves_modify; intros st Hst; unfold visit_reports in *; simpl; exact Hst.
Qed.

(** Each visited module is reported once, as processed or as not found. *)
Lemma process_module_counts : forall f y,
  preserves (fun st => length (visited_modules st) = visit_reports (output st)) (process_module f y).
Proof.
  induction f as [| f IH]; intros y st H; [exact H |].
  destruct y as [| | | m | |]; try exact H.
  destruct (mem m (visited_modules st)) eqn:M;
    [rewrite process_module_visited by exact M; exact H |].
  destruct (find_yaml_file (search_paths st) m) as [[path fl] |] eqn:F.
  - rewrite (process_module_found f m st path fl M F).
    refine (preserves_bind (fun st => length (visited_modules st) = visit_reports (output st))
              _ _ _ _ _ _).
    + unfold read_imports. destruct (py_get (loaded fl) "import" (YSeq []));
        [apply preserves_lift | apply preserves_raise].
    + intros imports. apply preserves_bind; [apply preserves_for_each; intros x; apply IH |].
      intros _. apply merge_module_counts.
    + destruct fl; unfold visit_reports in *; simpl; rewrite H; reflexivity.
  - rewrite process_module_not_found by assumption.
    unfold visit_reports in *. simpl. rewrite H. reflexivity.
Qed.
End AggMore.

(** ** What the permissive aggregator has merged once it returns *)

Module AggComplete.
Import YAMLAggregator.
Import AggTraversal.
























Lemma aggregate_new_prov : forall A sps m,
  AggMore.agg_prov (search_paths (new A sps)) (snd (aggregate (new A sps) m)).
Proof.
  intros A sps m. unfold aggregate. rewrite aggregate_body_eq.
  set (P := search_paths (new A sps)).
  destruct (AggMore.process_module_prov P (fuel_for P m) [] (YStr m)
              (emit_to (Aggregating m) (new A sps))) as (_ & _ & H).
  - split; [reflexivity | split; [intros x [] |]].
    split; [intros w m' d [] | split; [intros k d [] | intros N; discriminate N]].
  - destruct (process_module _ _ _) as [e st]. exact H.
Qed.
End AggComplete.

(** * Claims *)

(** C6: under the permissive, depth-first aggregator the module merged
    later wins a duplicated widget key: merging a module sets every widget
    key it defines to its own definition (tagged with its name) and leaves
    the other keys alone; in the fixture where [main] imports [a] and [b],
    [a] imports [c], and [b] and [c] define [x], the final [x] is [b]'s. *)
Theorem C6_later_merged_widget_wins : forall m content ws st,
  py_get content "widgets" (YMap []) = Some (YMap ws) ->
  NoDup (knorms ws) ->
  (forall k, ydict_lookup k (YAMLAggregator.widgets
                 (snd (YAMLAggregator.merge_module m content st))) =
     match ydict_lookup k ws with
     | Some d => Some (m, d)
     | None => ydict_lookup k (YAMLAggregator.widgets st)
     end) /\
  ydict_lookup (KStr "x") (YAMLAggregator.widgets
     (snd (YAMLAggregator.aggregate (YAMLAggregator.new dfs_fixture []) "main")))
    = Some ("b", YStr "from_b") /\
  fst (YAMLAggregator.aggregate (YAMLAggregator.new dfs_fixture []) "main")
    = Normal (smap [("widgets", smap [("x", YStr "from_b")])]).
Proof.
  intros m content ws st Hget Hnd. split; [| split; vm_compute; reflexivity].
  apply AggFacts.merge_module_widgets; assumption.
Qed.

Lemma C6_later_merged_widget_wins_witness :
  ydict_lookup (KStr "x") (YAMLAggregator.widgets (snd (YAMLAggregator.merge_module "b"
     (smap [("widgets", smap [("x", YStr "from_b")])])
     (YAMLAggregator.set_widgets [(KStr "x", ("c", YStr "from_c"))]
        (YAMLAggregator.new dfs_fixture []))))) = Some ("b", YStr "from_b").
Proof.
  refine (proj1 (C6_later_merged_widget_wins "b"
            (smap [("widgets", smap [("x", YStr "from_b")])])
            [(KStr "x", YStr "from_b")] _ eq_refl _) (KStr "x")).
  repeat constructor; simpl; tauto.
Defined.

(** C8: the reference rewriter is the identity on every (well-formed,
    i.e. dict-shaped) tree: same keys in the same order, same sequences,
    same scalar leaves. *)
Theorem C8_process_widget_references_identity : forall v,
  well_formed v = true -> YAMLAggregator.process_widget_references v = v.
Proof. exact process_widget_references_wf. Qed.

Lemma C8_process_widget_references_identity_witness :
  YAMLAggregator.process_widget_references
    (YMap [(KStr "tree", YSeq [YInt 1; YMap [(KInt 2, YNull); (KStr "a", YStr "x")]]); (KBool true, YBool true)])
  = YMap [(KStr "tree", YSeq [YInt 1; YMap [(KInt 2, YNull); (KStr "a", YStr "x")]]); (KBool true, YBool true)].
Proof. apply C8_process_widget_references_identity. reflexivity. Defined.

(** C2 (code bug): the permissive aggregator wraps a bare-string [import]
    in a list, but [Lang.load_main_module] passes it to [queue.extend],
    which enqueues its characters: for [import: foo] the strict resolver
    looks for module [f] and fails, while the aggregator loads [foo]. *)
Theorem C2_bare_string_import_split_by_lang :
  fst (Lang.load_main_module (Lang.new builtin_dir [bare_import_dir]) "main")
    = Lang.Returned (Lang.Error (Lang.ModuleNotFound "f")) /\
  Lang.queue (snd (Lang.load_main_module (Lang.new builtin_dir [bare_import_dir]) "main"))
    = [YStr "o"; YStr "o"] /\
  YAMLAggregator.visited_modules
    (snd (YAMLAggregator.aggregate (YAMLAggregator.new bare_import_dir []) "main"))
    = ["foo"; "main"] /\
  ydict_lookup (KStr "w") (YAMLAggregator.widgets
    (snd (YAMLAggregator.aggregate (YAMLAggregator.new bare_import_dir []) "main")))
    = Some ("foo", YStr "from_foo").
Proof. vm_compute. repeat split. Qed.

(** C3 (corrected): a malformed module file is fatal only for the strict
    resolver. When [Lang.load_main_module] pops an unvisited module whose
    located file does not parse, it returns the load error at once; the
    permissive aggregator prints the error, reads the file as an empty
    module ([{}]) and carries on. *)
Theorem C3_malformed_file_fatal_only_in_lang :
  (forall f l q v s path e,
     mem s v = false ->
     find_yaml_file (Lang.layouts_paths l) s = Some (path, Malformed e) ->
     Lang.loop (S f) (Lang.mkFrame l (YStr s :: q) v) =
     (Return (Lang.Error (Lang.YamlLoadFailed path)), Lang.mkFrame l q (s :: v))) /\
  (forall f st s path e,
     mem s (YAMLAggregator.visited_modules st) = false ->
     find_yaml_file (YAMLAggregator.search_paths st) s = Some (path, Malformed e) ->
     YAMLAggregator.process_module (S f) (YStr s) st =
     (Normal tt, YAMLAggregator.emit_to (YAMLAggregator.ErrorLoading path)
                   (YAMLAggregator.emit_to (YAMLAggregator.Processing path)
                      (YAMLAggregator.set_visited
                         (s :: YAMLAggregator.visited_modules st) st)))).
Proof.
  split.
  - intros f l q v s path e Hm Hf. rewrite LangFacts.loop_unvisited by exact Hm.
    rewrite Hf. reflexivity.
  - exact AggSteps.process_module_malformed.
Qed.

Lemma C3_malformed_file_fatal_only_in_lang_witness :
  Lang.loop 3 (Lang.mkFrame (Lang.new builtin_dir [malformed_dir]) [YStr "bad"] ["main"]) =
  (Return (Lang.Error (Lang.YamlLoadFailed "demo/bad.yaml")),
   Lang.mkFrame (Lang.new builtin_dir [malformed_dir]) [] ["bad"; "main"]).
Proof.
  apply (proj1 C3_malformed_file_fatal_only_in_lang 2 _ [] ["main"] "bad"
           "demo/bad.yaml" "mapping values are not allowed here");
    reflexivity.
Defined.

(** C3 counterexample: the aggregator goes past the malformed [bad] to
    [good] and returns a document with [good]'s widget. *)
Lemma C3_aggregator_continues_past_malformed :
  fst (YAMLAggregator.aggregate (YAMLAggregator.new malformed_dir []) "main")
    = Normal (smap [("widgets", smap [("w", YStr "from_good")])]) /\
  YAMLAggregator.visited_modules
    (snd (YAMLAggregator.aggregate (YAMLAggregator.new malformed_dir []) "main"))
    = ["good"; "bad"; "main"].
Proof. vm_compute. split; reflexivity. Qed.

(** C4 (corrected): the strict resolver never replaces a stored app block:
    once one is stored, processing a module whose [app] value is not null
    fails with the duplicate-app error [MultipleApp] of that module as soon
    as its widget and data steps succeed; otherwise it stops earlier, on a
    duplicate widget or data key or with an exception on a section that is
    not a mapping. It never completes and the stored app block is unchanged.
    The permissive aggregator has no such check: a module with an [app] key
    overwrites [app_config] and prints nothing, so the last merged app block
    is kept. *)
Theorem C4_app_uniqueness_policies :
  (forall cur kvs a fr,
     is_none (Lang.app_config (Lang.self fr)) = false ->
     py_get (YMap kvs) "app" YNull = Some a -> is_none a = false ->
     (forall w wi d di,
        py_get (YMap kvs) "widgets" (YMap []) = Some w -> py_items w = Some wi ->
        py_get (YMap kvs) "data" (YMap []) = Some d -> py_items d = Some di ->
        fst (for_each wi (Lang.merge_widget cur) fr) = Normal tt ->
        fst (for_each di Lang.merge_data (snd (for_each wi (Lang.merge_widget cur) fr))) = Normal tt ->
        fst (Lang.process_content cur (YMap kvs) fr)
          = Return (Lang.Error (Lang.MultipleApp cur))) /\
     (fst (Lang.process_content cur (YMap kvs) fr) = Return (Lang.Error (Lang.MultipleApp cur)) \/
      (exists x, fst (Lang.process_content cur (YMap kvs) fr)
                   = Return (Lang.Error (Lang.DuplicateWidget x))) \/
      (exists x, fst (Lang.process_content cur (YMap kvs) fr)
                   = Return (Lang.Error (Lang.DuplicateData x))) \/
      fst (Lang.process_content cur (YMap kvs) fr) = Raise AttributeError) /\
     Lang.app_config (Lang.self (snd (Lang.process_content cur (YMap kvs) fr)))
       = Lang.app_config (Lang.self fr)) /\
  (forall kvs a st,
     ydict_lookup (KStr "app") kvs = Some a ->
     YAMLAggregator.merge_app (YMap kvs) st = (Normal tt, YAMLAggregator.set_app a st)) /\
  fst (Lang.load_main_module (Lang.new builtin_dir [two_apps_dir]) "main")
    = Lang.Returned (Lang.Error (Lang.MultipleApp "a")).
Proof.
  split; [| split].
  - intros cur kvs a fr HA Hget Ha.
    destruct (LangFacts.process_content_app_cases cur kvs a fr HA Hget Ha) as [Gen Cases].
    split; [| split; [exact Cases |]].
    + intros w wi d di Gw Iw Gd Id. cbn [py_get] in Gw, Gd.
      injection Gw as <-. injection Gd as <-. exact (Gen wi Iw di Id).
    + exact (proj1 (LangFacts.process_content_keeps_app _ cur (YMap kvs) fr
                      (conj eq_refl HA))).
  - intros kvs a st H. unfold YAMLAggregator.merge_app. rewrite H. reflexivity.
  - vm_compute. reflexivity.
Qed.

Lemma C4_app_uniqueness_policies_witness :
  fst (Lang.process_content "a" (smap [("app", smap [("title", YStr "a")])])
         (Lang.mkFrame (Lang.set_app (smap [("title", YStr "main")])
                          (Lang.new builtin_dir [two_apps_dir])) [] ["a"; "main"]))
    = Return (Lang.Error (Lang.MultipleApp "a")).
Proof.
  apply (proj1 (proj1 C4_app_uniqueness_policies "a"
     [(KStr "app", smap [("title", YStr "a")])] (smap [("title", YStr "a")])
     (Lang.mkFrame (Lang.set_app (smap [("title", YStr "main")])
        (Lang.new builtin_dir [two_apps_dir])) [] ["a"; "main"])
     eq_refl eq_refl eq_refl) (YMap []) [] (YMap []) []);
    reflexivity.
Defined.

(** C4 counterexample: the aggregator keeps the app block merged last
    ([main]'s), not the first merged one ([a]'s). *)
Lemma C4_aggregator_keeps_last_app :
  YAMLAggregator.app_config
    (snd (YAMLAggregator.aggregate (YAMLAggregator.new two_apps_dir []) "main"))
    = smap [("title", YStr "main")] /\
  fst (YAMLAggregator.aggregate (YAMLAggregator.new two_apps_dir []) "main")
    = Normal (smap [("app", smap [("title", YStr "main")]); ("widgets", smap [("w", YInt 1)])]).
Proof. vm_compute. split; reflexivity. Qed.




(** C5 (corrected): only the strict resolver enforces the post-conditions.
    When [Lang.load_main_module] on a freshly constructed [Lang] returns
    [Ok], the stored widget keys are exactly the keys [c.w] of the widgets
    [w] of the files of the modules [c] reachable from the seeds, and there
    is at least one; the stored app block is not null and is the [app] value
    of a reachable module; and exactly one reachable module has a non-null
    [app] value. So a closure with no widget, with no app block or with two
    app blocks never loads with [Ok]. The permissive aggregator checks none
    of this: it returns a document for a closure with no widget and no app. *)
Theorem C5_post_conditions_in_lang : forall b ps m,
  fst (Lang.load_main_module (Lang.new b ps) m) = Lang.Returned Lang.Ok ->
  (forall k,
     In k (map fst (Lang.widget_definitions (Lang.self (snd (Lang.load_main_module (Lang.new b ps) m))))) <->
     exists c p v w, lang_reach (b :: ps) (Lang.seeds m) c /\
       find_yaml_file (b :: ps) c = Some (p, Document v) /\
       In w (map fst (content_items "widgets" (if is_none v then YMap [] else v))) /\
       k = (c ++ "." ++ key_str w)%string) /\
  (exists c p v w, lang_reach (b :: ps) (Lang.seeds m) c /\
     find_yaml_file (b :: ps) c = Some (p, Document v) /\
     In w (map fst (content_items "widgets" (if is_none v then YMap [] else v)))) /\
  is_none (Lang.app_config (Lang.self (snd (Lang.load_main_module (Lang.new b ps) m)))) = false /\
  (exists c p v, lang_reach (b :: ps) (Lang.seeds m) c /\
     find_yaml_file (b :: ps) c = Some (p, Document v) /\
     py_get (if is_none v then YMap [] else v) "app" YNull
       = Some (Lang.app_config (Lang.self (snd (Lang.load_main_module (Lang.new b ps) m))))) /\
  (forall c1 c2 p1 p2 v1 v2 a1 a2,
     lang_reach (b :: ps) (Lang.seeds m) c1 -> lang_reach (b :: ps) (Lang.seeds m) c2 ->
     find_yaml_file (b :: ps) c1 = Some (p1, Document v1) ->
     find_yaml_file (b :: ps) c2 = Some (p2, Document v2) ->
     py_get (if is_none v1 then YMap [] else v1) "app" YNull = Some a1 -> is_none a1 = false ->
     py_get (if is_none v2 then YMap [] else v2) "app" YNull = Some a2 -> is_none a2 = false ->
     c1 = c2).
Proof.
  intros b ps m H.
  destruct (LangFacts.load_main_module_ok _ m H) as [Wne Ane].
  destruct (LangApp.load_main_module_ok_frame b ps m H) as [Cw Ai].
  destruct (LangMore.load_main_module_prov b ps m) as (PW & _ & PA).
  destruct (LangTraversal.load_main_module_traversal (Lang.new b ps) m) as (_ & _ & R).
  specialize (R Lang.Ok H (or_introl eq_refl)).
  set (fr := snd (Lang.load_main_module (Lang.new b ps) m)) in *.
  assert (Fwd : forall k, In k (map fst (Lang.widget_definitions (Lang.self fr))) ->
     exists c p v w, lang_reach (b :: ps) (Lang.seeds m) c /\
       find_yaml_file (b :: ps) c = Some (p, Document v) /\
       In w (map fst (content_items "widgets" (if is_none v then YMap [] else v))) /\
       k = (c ++ "." ++ key_str w)%string).
  { intros k Hk. apply dict_mem_In in Hk. unfold assoc_mem in Hk.
    destruct (dict_lookup k (Lang.widget_definitions (Lang.self fr))) as [d |] eqn:L; [| discriminate Hk].
    destruct (PW k d L) as (c & p & v & w & Hc & F & Hw & ->).
    exists c, p, v, w. split; [apply R; exact Hc | split; [exact F | split; [| reflexivity]]].
    apply in_map_iff. exists (w, d). split; [reflexivity | exact Hw]. }
  split; [| split; [| split; [exact Ane | split]]].
  - intros k. split; [exact (Fwd k) |].
    intros (c & p & v & w & Hc & F & Hw & ->). apply (Cw c p v w); [apply R; exact Hc | exact F | exact Hw].
  - destruct (Lang.widget_definitions (Lang.self fr)) as [| [k d] ws] eqn:W; [contradiction |].
    destruct (Fwd k) as (c & p & v & w & Hc & F & Hw & _); [left; reflexivity |].
    exists c, p, v, w. split; [exact Hc | split; [exact F | exact Hw]].
  - destruct (PA Ane) as (c & p & v & Hc & F & G).
    exists c, p, v. split; [apply R; exact Hc | split; [exact F | exact G]].
  - intros c1 c2 p1 p2 v1 v2 a1 a2 R1 R2 F1 F2 G1 N1 G2 N2.
    apply R in R1. apply R in R2.
    destruct (Ai c1 p1 v1 a1 R1 F1 G1 N1) as [_ U].
    symmetry. exact (U c2 p2 v2 a2 R2 F2 G2 N2).
Qed.

Lemma C5_post_conditions_in_lang_witness :
  exists c p v, lang_reach [builtin_dir; single_dir] (Lang.seeds "main") c /\
    find_yaml_file [builtin_dir; single_dir] c = Some (p, Document v) /\
    py_get (if is_none v then YMap [] else v) "app" YNull
      = Some (Lang.app_config (Lang.self (snd
          (Lang.load_main_module (Lang.new builtin_dir [single_dir]) "main")))).
Proof.
  refine (proj1 (proj2 (proj2 (proj2
            (C5_post_conditions_in_lang builtin_dir [single_dir] "main" _))))).
  vm_compute. reflexivity.
Defined.

(** C5 counterexample: the aggregator returns an empty document for an
    empty main module instead of failing. *)
Lemma C5_aggregator_accepts_empty_closure :
  fst (YAMLAggregator.aggregate (YAMLAggregator.new empty_main_dir []) "main")
    = Normal (YMap []).
Proof. vm_compute. reflexivity. Qed.



(** C7 (corrected): the stored key of widget [w] of module [m] is the
    f-string [m.w], built from the rendering of [w] ([str] of the key: [1]
    and ['1'] both give [1]). When in every module file of the search paths
    the renderings of the widget keys are distinct and dot-free,
    [Lang.load_main_module] on a freshly constructed [Lang] never fails with
    the duplicate-widget error: each module is processed once and the key
    [m.w] determines [m] and the rendering of [w]. *)
Theorem C7_qualified_widgets_no_duplicate : forall b ps m x,
  paths_ok (b :: ps) = true ->
  fst (Lang.load_main_module (Lang.new b ps) m)
    <> Lang.Returned (Lang.Error (Lang.DuplicateWidget x)).
Proof.
  intros b ps m x Hp. rewrite LangFacts.load_main_module_eq.
  destruct (Lang.loop _ _) as [e fr] eqn:L.
  pose proof (LangFacts.loop_no_dup _ (Lang.mkFrame (Lang.new b ps) (Lang.seeds m) []) _ _ Hp
                (fun k (H : In k []) => match H with end) L x) as H.
  destruct e as [[] | r | y |]; simpl.
  - unfold LangFacts.final_check.
    destruct (Lang.widget_definitions (Lang.self fr)); [discriminate |].
    destruct (is_none (Lang.app_config (Lang.self fr))); discriminate.
  - intros Hr. injection Hr as ->. apply H. reflexivity.
  - discriminate.
  - discriminate.
Qed.

Lemma C7_qualified_widgets_no_duplicate_witness :
  paths_ok [builtin_dir; dfs_fixture] = true /\
  fst (Lang.load_main_module (Lang.new builtin_dir [dfs_fixture]) "main")
    <> Lang.Returned (Lang.Error (Lang.DuplicateWidget "b.x")).
Proof.
  split; [vm_compute; reflexivity |].
  apply (C7_qualified_widgets_no_duplicate builtin_dir [dfs_fixture] "main" "b.x").
  vm_compute. reflexivity.
Defined.

(** C7, counterexample: module [a] with widget [b.c] and module [a.b] with
    widget [c] both produce the key [a.b.c]; module [main] with the widgets
    [1] (an integer) and ['1'] (a string) produces [main.1] twice. In both
    cases [Lang.load_main_module] fails with the duplicate-widget error. *)
Lemma C7_dotted_widget_names_collide :
  fst (Lang.load_main_module (Lang.new builtin_dir [dotted_dir]) "main")
    = Lang.Returned (Lang.Error (Lang.DuplicateWidget "a.b.c")) /\
  fst (Lang.load_main_module (Lang.new builtin_dir [int_key_dir]) "main")
    = Lang.Returned (Lang.Error (Lang.DuplicateWidget "main.1")).
Proof. split; vm_compute; reflexivity. Qed.

(** C1 (corrected): both resolvers terminate on every module tree and visit
    no module name twice (the visited list has no duplicates, whatever the
    outcome). The visited names are exactly the names reachable from the
    seeds, following the entries each resolver takes from an import value,
    only when the traversal runs to the end: for [Lang.load_main_module]
    when it returns [Ok] or one of the final-check errors, for
    [YAMLAggregator.aggregate] when it returns a document. *)
Theorem C1_resolution_terminates_visits_reachable_once : forall l m A sps m',
  (fst (Lang.load_main_module l m) <> Lang.Diverged /\
   NoDup (Lang.visited (snd (Lang.load_main_module l m))) /\
   (forall r, fst (Lang.load_main_module l m) = Lang.Returned r ->
      LangTraversal.final_result r ->
      forall s, In s (Lang.visited (snd (Lang.load_main_module l m))) <->
                lang_reach (Lang.layouts_paths l) (Lang.seeds m) s)) /\
  (fst (YAMLAggregator.aggregate (YAMLAggregator.new A sps) m') <> NoFuel /\
   NoDup (YAMLAggregator.visited_modules (snd (YAMLAggregator.aggregate (YAMLAggregator.new A sps) m'))) /\
   (forall v, fst (YAMLAggregator.aggregate (YAMLAggregator.new A sps) m') = Normal v ->
      forall s, In s (YAMLAggregator.visited_modules
                        (snd (YAMLAggregator.aggregate (YAMLAggregator.new A sps) m'))) <->
                agg_reach (YAMLAggregator.search_paths (YAMLAggregator.new A sps)) m' s)).
Proof.
  intros l m A sps m'.
  split; [apply LangTraversal.load_main_module_traversal | apply AggTraversal.aggregate_traversal].
Qed.

Lemma C1_resolution_terminates_visits_reachable_once_witness :
  fst (Lang.load_main_module (Lang.new builtin_dir [dfs_fixture]) "main")
    = Lang.Returned (Lang.Error Lang.NoApp) /\
  lang_reach [builtin_dir; dfs_fixture] (Lang.seeds "main") "c" /\
  agg_reach [dfs_fixture] "main" "c".
Proof.
  destruct (C1_resolution_terminates_visits_reachable_once
              (Lang.new builtin_dir [dfs_fixture]) "main" dfs_fixture [] "main")
    as [(_ & _ & HL) (_ & _ & HA)].
  split; [vm_compute; reflexivity | split].
  - apply (proj1 (HL (Lang.Error Lang.NoApp) ltac:(vm_compute; reflexivity)
                    ltac:(right; right; reflexivity) "c")).
    apply mem_In. vm_compute. reflexivity.
  - assert (Hv : fst (YAMLAggregator.aggregate (YAMLAggregator.new dfs_fixture []) "main")
                 = Normal (YAMLAggregator.build_result
                             (snd (YAMLAggregator.aggregate (YAMLAggregator.new dfs_fixture []) "main"))))
      by (vm_compute; reflexivity).
    apply (proj1 (HA _ Hv "c")).
    apply mem_In. vm_compute. reflexivity.
Defined.

(** C1, counterexample: [main] imports [bad] and [good]; [bad] is malformed.
    [Lang.load_main_module] stops on [bad] with [good] reachable but never
    visited. *)
Lemma C1_lang_stops_before_reachable_module :
  fst (Lang.load_main_module (Lang.new builtin_dir [malformed_dir]) "main")
    = Lang.Returned (Lang.Error (Lang.YamlLoadFailed "demo/bad.yaml")) /\
  lang_reach [builtin_dir; malformed_dir] (Lang.seeds "main") "good" /\
  ~ In "good" (Lang.visited (snd (Lang.load_main_module (Lang.new builtin_dir [malformed_dir]) "main"))).
Proof.
  split; [vm_compute; reflexivity | split].
  - apply (lang_reach_import _ _ "main" "demo/main.yaml"
             (smap [("import", YSeq [YStr "bad"; YStr "good"])])).
    + apply lang_reach_seed. left. reflexivity.
    + vm_compute. reflexivity.
    + vm_compute. right. left. reflexivity.
  - intros H. apply mem_In in H. vm_compute in H. discriminate H.
Qed.

(** * Further properties of the code *)

(** X1: [Lang.init] succeeds exactly when every search path, the builtin
    layouts directory first, is an existing directory; otherwise it reports
    the first path that is not, as missing or as no directory. *)
Theorem X1_init_checks_search_paths : forall stat l,
  (Lang.init stat l = Lang.InitOk <->
     Forall (fun d => stat (dir_path d) = Lang.PathDir) (Lang.layouts_paths l)) /\
  (forall e, Lang.init stat l = Lang.InitError e ->
     exists pre d post, Lang.layouts_paths l = pre ++ d :: post /\
       Forall (fun d => stat (dir_path d) = Lang.PathDir) pre /\
       ((stat (dir_path d) = Lang.PathMissing /\ e = Lang.SearchPathMissing (dir_path d)) \/
        (stat (dir_path d) = Lang.PathOther /\ e = Lang.SearchPathNotDir (dir_path d)))).
Proof.
  intros stat l. unfold Lang.init. induction (Lang.layouts_paths l) as [| d ds IH]; simpl.
  - split; [split; [intros _; constructor | reflexivity] | intros e H; discriminate H].
  - destruct IH as [IH1 IH2]. destruct (stat (dir_path d)) eqn:K.
    + split; [split; [discriminate | intros H; inversion H; congruence] |].
      intros e H. injection H as <-. exists [], d, ds.
      split; [reflexivity | split; [constructor | left; split; [exact K | reflexivity]]].
    + split; [rewrite IH1; split; [intros H; constructor; assumption | intros H; inversion H; assumption] |].
      intros e H. destruct (IH2 e H) as (pre & d' & post & E & F & R).
      exists (d :: pre), d', post.
      split; [rewrite E; reflexivity | split; [constructor; assumption | exact R]].
    + split; [split; [discriminate | intros H; inversion H; congruence] |].
      intros e H. injection H as <-. exists [], d, ds.
      split; [reflexivity | split; [constructor | right; split; [exact K | reflexivity]]].
Qed.

Lemma X1_init_checks_search_paths_witness :
  Lang.init (fun p => if String.eqb p "frontend/layouts" then Lang.PathDir else Lang.PathMissing)
    (Lang.new builtin_dir [dfs_fixture]) = Lang.InitError (Lang.SearchPathMissing "demo") /\
  exists pre d post, Lang.layouts_paths (Lang.new builtin_dir [dfs_fixture]) = pre ++ d :: post /\
    Forall (fun d => (if String.eqb (dir_path d) "frontend/layouts" then Lang.PathDir else Lang.PathMissing) = Lang.PathDir) pre /\
    (((if String.eqb (dir_path d) "frontend/layouts" then Lang.PathDir else Lang.PathMissing) = Lang.PathMissing /\
      Lang.SearchPathMissing "demo" = Lang.SearchPathMissing (dir_path d)) \/
     ((if String.eqb (dir_path d) "frontend/layouts" then Lang.PathDir else Lang.PathMissing) = Lang.PathOther /\
      Lang.SearchPathMissing "demo" = Lang.SearchPathNotDir (dir_path d))).
Proof.
  split; [reflexivity |].
  exact (proj2 (X1_init_checks_search_paths
                  (fun p => if String.eqb p "frontend/layouts" then Lang.PathDir else Lang.PathMissing)
                  (Lang.new builtin_dir [dfs_fixture])) (Lang.SearchPathMissing "demo") eq_refl).
Defined.

(** X2: after a load and [Lang.dispose], the object loads any module exactly
    as a new [Lang] with the same search paths: a load never changes the
    search paths, and dispose empties the three stores. *)
Theorem X2_dispose_restores_fresh_object : forall b ps m m',
  Lang.load_main_module
    (snd (Lang.dispose (Lang.self (snd (Lang.load_main_module (Lang.new b ps) m))))) m' =
  Lang.load_main_module (Lang.new b ps) m'.
Proof.
  intros b ps m m'.
  destruct (LangFacts.load_main_module_grows (Lang.new b ps) m) as [HL _].
  unfold Lang.dispose. simpl snd. rewrite HL. reflexivity.
Qed.

(** X3: a [Lang] object is single-use: once [load_main_module] has
    succeeded on a new object, loading the same main module again on it
    never succeeds. *)
Theorem X3_second_load_never_ok : forall b ps m,
  fst (Lang.load_main_module (Lang.new b ps) m) = Lang.Returned Lang.Ok ->
  fst (Lang.load_main_module (Lang.self (snd (Lang.load_main_module (Lang.new b ps) m))) m)
    <> Lang.Returned Lang.Ok.
Proof.
  intros b ps m H1.
  set (l0 := Lang.new b ps).
  pose proof (LangMore.load_main_module_prov b ps m) as Prov. fold l0 in Prov.
  destruct (LangFacts.load_main_module_ok l0 m H1) as [Wne _].
  destruct (LangTraversal.load_main_module_traversal l0 m) as (_ & _ & R1).
  specialize (R1 Lang.Ok H1 (or_introl eq_refl)).
  assert (C1 : lang_complete (b :: ps) (snd (Lang.load_main_module l0 m))).
  { pose proof H1 as H1'. rewrite LangFacts.load_main_module_eq in H1' |- *.
    pose proof (LangFacts.loop_never_ok (Lang.fuel_for (Lang.layouts_paths l0) (Lang.seeds m))
                  (Lang.mkFrame l0 (Lang.seeds m) [])) as Nok.
    destruct (Lang.loop _ _) as [e fr] eqn:L.
    destruct e as [[] | r | x |]; simpl in H1' |- *; try discriminate H1'.
    - refine (LangMore.loop_complete_widgets (b :: ps) _ (Lang.mkFrame l0 (Lang.seeds m) []) fr eq_refl _ L).
      intros ? ? ? ? [].
    - injection H1' as ->. exfalso. apply Nok. reflexivity. }
  destruct (LangFacts.load_main_module_grows l0 m) as [HL _].
  set (fr1 := snd (Lang.load_main_module l0 m)) in *.
  destruct Prov as [PW _].
  destruct (Lang.widget_definitions (Lang.self fr1)) as [| [k d0] ws] eqn:W; [contradiction |].
  assert (Lk : dict_lookup k ((k, d0) :: ws) = Some d0)
    by (simpl; rewrite String.eqb_refl; reflexivity).
  destruct (PW k d0 Lk) as (c & p & v & w & Hc & F & Hw & ->).
  destruct (content_items "widgets" (if is_none v then YMap [] else v)) as [| [w1 d1] rest] eqn:CI;
    [destruct Hw |].
  assert (K : In (c ++ "." ++ key_str w1)%string (map fst (Lang.widget_definitions (Lang.self fr1))))
    by (apply (C1 c p v w1 Hc F); rewrite CI; left; reflexivity).
  set (L1 := Lang.self fr1) in *.
  assert (F1 : find_yaml_file (Lang.layouts_paths L1) c = Some (p, Document v))
    by (rewrite HL; exact F).
  intros H2.
  destruct (LangTraversal.load_main_module_traversal L1 m) as (_ & _ & R2).
  specialize (R2 Lang.Ok H2 (or_introl eq_refl) c).
  assert (In2 : In c (Lang.visited (snd (Lang.load_main_module L1 m)))).
  { apply R2. rewrite HL. apply R1. exact Hc. }
  revert H2 In2. rewrite LangFacts.load_main_module_eq.
  pose proof (LangFacts.loop_never_ok (Lang.fuel_for (Lang.layouts_paths L1) (Lang.seeds m))
                (Lang.mkFrame L1 (Lang.seeds m) [])) as Nok2.
  pose proof (LangMore.loop_avoids L1 c p v w1 d1 rest (Lang.fuel_for (Lang.layouts_paths L1) (Lang.seeds m))
                (Lang.mkFrame L1 (Lang.seeds m) [])) as Av.
  destruct (Lang.loop _ _) as [e fr2] eqn:L2.
  intros H2 In2. destruct e as [[] | r | x |]; simpl in H2, In2; try discriminate H2.
  - exact (Av fr2 F1 CI K (LangFacts.extends_refl L1) (fun h => h) eq_refl In2).
  - injection H2 as ->. apply Nok2. reflexivity.
Qed.

Lemma X3_second_load_never_ok_witness :
  fst (Lang.load_main_module (Lang.new builtin_dir [single_dir]) "main") = Lang.Returned Lang.Ok /\
  fst (Lang.load_main_module (Lang.self (snd (Lang.load_main_module (Lang.new builtin_dir [single_dir]) "main"))) "main")
    <> Lang.Returned Lang.Ok.
Proof.
  assert (H : fst (Lang.load_main_module (Lang.new builtin_dir [single_dir]) "main") = Lang.Returned Lang.Ok)
    by (vm_compute; reflexivity).
  split; [exact H | exact (X3_second_load_never_ok builtin_dir [single_dir] "main" H)].
Defined.

(** X4: [Lang.load_main_module] raises [AttributeError] when the main
    module's file holds a document that is neither empty nor a mapping, even
    a falsy one such as an empty list; only an empty document reads as {}. *)
Theorem X4_lang_rejects_non_mapping_document : forall l m p v,
  find_yaml_file (Lang.layouts_paths l) m = Some (p, Document v) ->
  is_none v = false -> (forall kvs, v <> YMap kvs) ->
  fst (Lang.load_main_module l m) = Lang.Raised AttributeError.
Proof.
  intros l m p v F N NM. rewrite LangFacts.load_main_module_eq.
  unfold Lang.fuel_for, Lang.seeds.
  rewrite LangFacts.loop_unvisited by reflexivity. rewrite F, N.
  assert (G : py_get v "widgets" (YMap []) = None)
    by (destruct v; try reflexivity; exfalso; exact (NM _ eq_refl)).
  unfold Lang.process_content. rewrite G. reflexivity.
Qed.

Lemma X4_lang_rejects_non_mapping_document_witness :
  fst (Lang.load_main_module (Lang.new builtin_dir [mkDir "demo" [("main.yaml", Document (YSeq []))]]) "main")
    = Lang.Raised AttributeError.
Proof.
  apply (X4_lang_rejects_non_mapping_document _ "main" "demo/main.yaml" (YSeq [])).
  - reflexivity.
  - reflexivity.
  - intros kvs H. discriminate H.
Defined.

(** X5: after [load_main_module] on a new [Lang], however it ends, each
    stored widget [m.w] is widget [w] of the file of a visited module [m],
    each data entry is an entry of a visited module's data, and a stored app
    block is the app of a visited module. *)
Theorem X5_lang_stores_only_visited_file_entries : forall b ps m,
  lang_prov (b :: ps) (snd (Lang.load_main_module (Lang.new b ps) m)).
Proof. exact LangMore.load_main_module_prov. Qed.

(** X6: when the loop of [load_main_module] runs to its end and the main
    module is not [builtin], [builtin] is the second module visited, right
    after the main module and before any of its imports. *)
Theorem X6_builtin_visited_right_after_main : forall l m r,
  m <> "builtin" ->
  fst (Lang.load_main_module l m) = Lang.Returned r -> LangTraversal.final_result r ->
  exists pre, Lang.visited (snd (Lang.load_main_module l m)) = pre ++ ["builtin"; m].
Proof.
  intros l m r Hm H Hf. rewrite LangFacts.load_main_module_eq in H |- *.
  pose proof (LangTraversal.loop_never_final r (Lang.fuel_for (Lang.layouts_paths l) (Lang.seeds m)) Hf
                (Lang.mkFrame l (Lang.seeds m) [])) as NF.
  destruct (Lang.loop _ _) as [e fr] eqn:L.
  destruct e as [[] | r' | x |]; simpl in H; try discriminate H;
    [| injection H as ->; exfalso; apply NF; reflexivity].
  simpl. unfold Lang.fuel_for, Lang.seeds in L.
  rewrite LangFacts.loop_unvisited in L by reflexivity.
  destruct (find_yaml_file (Lang.layouts_paths l) m) as [[path [err | d]] |] eqn:F; try discriminate L.
  destruct (Lang.process_content m (if is_none d then YMap [] else d) (Lang.mkFrame l [YStr "builtin"] [m]))
    as [e1 fr1] eqn:PC.
  rewrite (bind_split _ _ _ _ _ PC) in L. destruct e1 as [[] | r1 | x1 |]; try discriminate L.
  destruct (LangTraversal.process_content_queue _ _ _ _ PC) as (Q1 & V1 & _).
  destruct fr1 as [l1 q1 v1]. simpl in Q1, V1. subst q1 v1.
  cbv beta in L. cbn [length Nat.add app] in L.
  assert (Mb : mem "builtin" [m] = false).
  { unfold mem. cbn [existsb]. destruct (String.eqb_spec "builtin" m) as [E | E];
      [exfalso; apply Hm; symmetry; exact E | reflexivity]. }
  rewrite LangFacts.loop_unvisited in L by exact Mb.
  destruct (find_yaml_file (Lang.layouts_paths l1) "builtin") as [[path2 [err2 | d2]] |]; try discriminate L.
  destruct (Lang.process_content "builtin" (if is_none d2 then YMap [] else d2)
              (Lang.mkFrame l1 (Lang.pushed d) ["builtin"; m])) as [e2 fr2] eqn:PC2.
  rewrite (bind_split _ _ _ _ _ PC2) in L. destruct e2 as [[] | r2 | x2 |]; try discriminate L.
  destruct (LangTraversal.process_content_queue _ _ _ _ PC2) as (_ & V2 & _). simpl in V2.
  match type of L with
  | Lang.loop ?g fr2 = _ =>
      pose proof (LangMore.loop_visited_suffix g (Lang.visited fr2) fr2 (ex_intro _ [] eq_refl)) as S
  end.
  rewrite L in S. simpl in S. rewrite V2 in S. exact S.
Qed.

Lemma X6_builtin_visited_right_after_main_witness :
  exists pre, Lang.visited (snd (Lang.load_main_module (Lang.new builtin_dir [single_dir]) "main"))
                = pre ++ ["builtin"; "main"].
Proof.
  apply (X6_builtin_visited_right_after_main _ "main" Lang.Ok).
  - discriminate.
  - vm_compute. reflexivity.
  - left. reflexivity.
Defined.

(** X7: for an unvisited main module whose file is a falsy document (empty,
    an empty list, 0, ...), [aggregate] reads it as {}: it only records the
    visit and returns the document of the stores as they were; a truthy
    document that is no mapping raises [AttributeError]. *)
Theorem X7_aggregator_document_normalisation : forall a m p v,
  mem m (YAMLAggregator.visited_modules a) = false ->
  find_yaml_file (YAMLAggregator.search_paths a) m = Some (p, Document v) ->
  (truthy v = false ->
     YAMLAggregator.aggregate a m =
     (Normal (YAMLAggregator.build_result a),
      YAMLAggregator.emit_to (YAMLAggregator.Processing p)
        (YAMLAggregator.set_visited (m :: YAMLAggregator.visited_modules a)
           (YAMLAggregator.emit_to (YAMLAggregator.Aggregating m) a)))) /\
  (truthy v = true -> (forall kvs, v <> YMap kvs) ->
     fst (YAMLAggregator.aggregate a m) = Raise AttributeError).
Proof.
  intros a m p v M F. unfold YAMLAggregator.aggregate. rewrite aggregate_body_eq.
  unfold YAMLAggregator.fuel_for.
  rewrite (AggTraversal.process_module_found _ m
             (YAMLAggregator.emit_to (YAMLAggregator.Aggregating m) a) p (Document v) M F).
  unfold AggTraversal.loaded. split.
  - intros T. rewrite T. reflexivity.
  - intros T NM. rewrite T. unfold AggTraversal.read_imports.
    assert (G : py_get v "import" (YSeq []) = None)
      by (destruct v; try reflexivity; exfalso; exact (NM _ eq_refl)).
    rewrite G. reflexivity.
Qed.

(** X8: calling [aggregate] again with the same main module on an
    aggregator whose previous call returned reprocesses nothing and returns
    the same document. *)
Theorem X8_reaggregate_same_document : forall a m v a1,
  YAMLAggregator.aggregate a m = (Normal v, a1) ->
  YAMLAggregator.aggregate a1 m =
  (Normal v, YAMLAggregator.emit_to (YAMLAggregator.Aggregating m) a1).
Proof.
  intros a m v a1 E.
  pose proof E as E'. unfold YAMLAggregator.aggregate in E'. rewrite aggregate_body_eq in E'.
  set (st0 := YAMLAggregator.emit_to (YAMLAggregator.Aggregating m) a) in E'.
  destruct (YAMLAggregator.process_module _ (YStr m) st0) as [e st] eqn:PM.
  destruct e as [[] | [] | x |]; try discriminate E'.
  injection E' as <- <-.
  destruct (AggTraversal.process_module_closed (YAMLAggregator.search_paths st0) _ (YStr m)
              (YAMLAggregator.visited_modules st0) st0 st eq_refl
              (fun s Hs Hk => match Hk Hs with end) PM) as (_ & Hm & _).
  specialize (Hm m eq_refl).
  unfold YAMLAggregator.aggregate. rewrite aggregate_body_eq. unfold YAMLAggregator.fuel_for.
  rewrite AggTraversal.process_module_visited by (apply mem_In; exact Hm).
  reflexivity.
Qed.

(** X9: on a new aggregator, the number of visited modules (the figure of
    the summary line of [main]) equals the number of Processing lines plus
    the number of not-found warnings; modules that were not found count. *)
Theorem X9_every_visited_module_reported_once : forall A sps m,
  length (YAMLAggregator.visited_modules (snd (YAMLAggregator.aggregate (YAMLAggregator.new A sps) m))) =
  visit_reports (YAMLAggregator.output (snd (YAMLAggregator.aggregate (YAMLAggregator.new A sps) m))).
Proof.
  intros A sps m. unfold YAMLAggregator.aggregate. rewrite aggregate_body_eq.
  pose proof (AggMore.process_module_counts
                (YAMLAggregator.fuel_for (YAMLAggregator.search_paths (YAMLAggregator.new A sps)) m) (YStr m)
                (YAMLAggregator.emit_to (YAMLAggregator.Aggregating m) (YAMLAggregator.new A sps)) eq_refl) as H.
  destruct (YAMLAggregator.process_module _ _ _) as [e st]. exact H.
Qed.

(** X10: after [aggregate] on a new aggregator, however it ends, each stored
    widget is tagged with a visited module whose loaded content defines it,
    each data entry comes from a visited module's data, and a stored app
    block is the app of a visited module. *)
Theorem X10_aggregator_stores_only_visited_file_entries : forall A sps m,
  AggMore.agg_prov (YAMLAggregator.search_paths (YAMLAggregator.new A sps))
    (snd (YAMLAggregator.aggregate (YAMLAggregator.new A sps) m)).
Proof. exact AggComplete.aggregate_new_prov. Qed.

Lemma X7_aggregator_document_normalisation_witness :
  YAMLAggregator.aggregate (YAMLAggregator.new (mkDir "demo" [("main.yaml", Document (YSeq []))]) []) "main" =
  (Normal (YAMLAggregator.build_result (YAMLAggregator.new (mkDir "demo" [("main.yaml", Document (YSeq []))]) [])),
   YAMLAggregator.emit_to (YAMLAggregator.Processing "demo/main.yaml")
     (YAMLAggregator.set_visited ["main"]
        (YAMLAggregator.emit_to (YAMLAggregator.Aggregating "main")
           (YAMLAggregator.new (mkDir "demo" [("main.yaml", Document (YSeq []))]) [])))) /\
  fst (YAMLAggregator.aggregate (YAMLAggregator.new (mkDir "demo" [("main.yaml", Document (YSeq [YInt 1]))]) []) "main")
    = Raise AttributeError.
Proof.
  split.
  - exact (proj1 (X7_aggregator_document_normalisation
                    (YAMLAggregator.new (mkDir "demo" [("main.yaml", Document (YSeq []))]) [])
                    "main" "demo/main.yaml" (YSeq []) eq_refl eq_refl) eq_refl).
  - refine (proj2 (X7_aggregator_document_normalisation
                     (YAMLAggregator.new (mkDir "demo" [("main.yaml", Document (YSeq [YInt 1]))]) [])
                     "main" "demo/main.yaml" (YSeq [YInt 1]) eq_refl eq_refl) eq_refl _).
    intros kvs H. discriminate H.
Defined.

Lemma X8_reaggregate_same_document_witness :
  exists v a1,
    YAMLAggregator.aggregate (YAMLAggregator.new dfs_fixture []) "main" = (Normal v, a1) /\
    YAMLAggregator.aggregate a1 "main" =
    (Normal v, YAMLAggregator.emit_to (YAMLAggregator.Aggregating "main") a1).
Proof.
  exists (YAMLAggregator.build_result (snd (YAMLAggregator.aggregate (YAMLAggregator.new dfs_fixture []) "main"))),
         (snd (YAMLAggregator.aggregate (YAMLAggregator.new dfs_fixture []) "main")).
  assert (E : YAMLAggregator.aggregate (YAMLAggregator.new dfs_fixture []) "main" =
              (Normal (YAMLAggregator.build_result (snd (YAMLAggregator.aggregate (YAMLAggregator.new dfs_fixture []) "main"))),
               snd (YAMLAggregator.aggregate (YAMLAggregator.new dfs_fixture []) "main")))
    by (vm_compute; reflexivity).
  split; [exact E | exact (X8_reaggregate_same_document _ "main" _ _ E)].
Defined.
